(** * Normalize Armature Weights: a shallow embedding and its properties

    The development follows [normalize_armature_weights.py]:
    - [restore_mode], [assign_all_groups] (the membership guarantor) and
      [normalize_armature] (validation, guarantor call, per-vertex loop);
    - weights are Python floats in the source; here they are rationals
      ([Q]), so every statement is about exact arithmetic.  Comparisons
      ([sum != 1.0], truthiness of [sum_other], [>= 1.0]) are the boolean
      tests of [Q]; computed weights are compared with [==];
    - Python exceptions are the [Raise] results of a small error monad;
    - the host application (Blender's [bpy]) is modelled by a record of the
      state the script reads and writes, and by the handful of operators
      the script calls. *)

From Stdlib Require Import QArith Qminmax Qabs Lqa ZArith Ascii String.
From stdpp Require Import base tactics option list gmap strings.

Local Open Scope Z_scope.
Local Open Scope nat_scope.

(** ** Exceptions *)

Inductive exn := ValueError | IndexError | AttributeError | TypeError.

Inductive result (A : Type) : Type :=
| Ok (a : A)
| Raise (e : exn).
Arguments Ok {A} a.
Arguments Raise {A} e.

(** The error monad, with stdpp's [x ← m; k] notation. *)
#[global] Instance result_ret : MRet result := λ A a, Ok a.
#[global] Instance result_bind : MBind result := λ A B k m,
  match m with
  | Ok a => k a
  | Raise e => Raise e
  end.

(** [for x in l: body], where the body may raise. *)
Fixpoint for_each {A S} (l : list A) (body : A → S → result S) (s : S)
  : result S :=
  match l with
  | [] => Ok s
  | a :: l' => s' ← body a s; for_each l' body s'
  end.

(** [enumerate(l)], counting from [k]. *)
Fixpoint enumerate_from {A} (k : nat) (l : list A) : list (nat * A) :=
  match l with
  | [] => []
  | a :: l' => (k, a) :: enumerate_from (S k) l'
  end.

Definition enumerate {A} (l : list A) : list (nat * A) := enumerate_from 0 l.

(** ** Python sequence indexing *)

(** The position [l[i]] denotes in a sequence of length [n]: negative
    indices count from the end, anything else out of range is an
    [IndexError]. *)
Definition py_pos (n : nat) (i : Z) : option nat :=
  if (0 <=? i)%Z then
    if (i <? Z.of_nat n)%Z then Some (Z.to_nat i) else None
  else
    if (- Z.of_nat n <=? i)%Z then Some (Z.to_nat (i + Z.of_nat n)) else None.

Definition getitem {A} (l : list A) (i : Z) : result A :=
  match py_pos (length l) i with
  | Some k => match l !! k with Some a => Ok a | None => Raise IndexError end
  | None => Raise IndexError
  end.

(** [l.index(v)] on a list of integers. *)
Fixpoint list_index (l : list Z) (v : Z) : result nat :=
  match l with
  | [] => Raise ValueError
  | y :: l' => if (y =? v)%Z then Ok 0 else n ← list_index l' v; Ok (S n)
  end.

(** ** Vertex data *)

(** One element of [vert.groups]: the group it belongs to and its weight. *)
Record VertexGroupElement := { group : nat; weight : Q }.

Definition with_weight (w : Q) (e : VertexGroupElement) : VertexGroupElement :=
  {| group := group e; weight := w |}.

(** [groups[i].weight = w] *)
Definition set_weight (groups : list VertexGroupElement) (i : Z) (w : Q)
  : result (list VertexGroupElement) :=
  match py_pos (length groups) i with
  | Some k => Ok (alter (with_weight w) k groups)
  | None => Raise IndexError
  end.

(** [max(min(w, 1.0), 0.0)]: Python's [min] keeps its first argument unless
    the second is smaller, [max] keeps its first unless the second is
    larger, which is what [Qmin] and [Qmax] do. *)
Definition clamp (w : Q) : Q := Qmax (Qmin w 1) 0.

(** ** The per-vertex algorithm (lines 124-175) *)

(** The local variables of the gathering loop, with [groups] the vertex's
    elements as mutated so far. *)
Record gathered := {
  g_groups : list VertexGroupElement;
  active_group : Z;
  weights : list Q;
  indexes : list Z;
  sum : Q;
  sum_other : Q
}.

Definition gather_init (groups : list VertexGroupElement) : gathered :=
  {| g_groups := groups; active_group := (-1)%Z; weights := []; indexes := [];
     sum := 0; sum_other := 0 |}.

Definition gather_step (bone_indexes : gset nat) (active_index : nat)
    (st : gathered) (xg : nat * VertexGroupElement) : gathered :=
  let '(x, g) := xg in
  if decide (group g ∈ bone_indexes) then
    let w := clamp (weight g) in
    {| g_groups := alter (with_weight w) x (g_groups st);
       weights := weights st ++ [w];
       indexes := indexes st ++ [Z.of_nat x];
       sum := (sum st + w)%Q;
       sum_other :=
         if decide (group g ≠ active_index) then (sum_other st + w)%Q
         else sum_other st;
       active_group :=
         if decide (group g ≠ active_index) then active_group st
         else Z.of_nat x |}
  else st.

Definition gather (bone_indexes : gset nat) (active_index : nat)
    (groups : list VertexGroupElement) : gathered :=
  fold_left (gather_step bone_indexes active_index) (enumerate groups)
            (gather_init groups).

(** Truthiness of a float: nonzero. *)
Definition truthy (q : Q) : bool := negb (Qeq_bool q 0).

(** [for x, weight in enumerate(weights): groups[indexes[x]].weight = f(weight)],
    the assignment being guarded by [cond(indexes[x])]. *)
Definition assign_collected (weights : list Q) (indexes : list Z)
    (cond : Z → bool) (f : Q → Q) (groups : list VertexGroupElement)
  : result (list VertexGroupElement) :=
  for_each (enumerate weights)
    (λ '(x, weight) groups,
       i ← getitem indexes (Z.of_nat x);
       if cond i then set_weight groups i (f weight) else Ok groups)
    groups.

Definition normalize_vertex (bone_indexes : gset nat) (active_index : nat)
    (groups0 : list VertexGroupElement) : result (list VertexGroupElement) :=
  let st := gather bone_indexes active_index groups0 in
  let groups := g_groups st in
  if negb (Qeq_bool (sum st) 1) then
    if (active_group st =? -1)%Z && truthy (sum_other st) then
      (* Vertex not in active group.  Normalize proportionally. *)
      assign_collected (weights st) (indexes st) (λ _, true)
        (λ weight, weight / sum_other st)%Q groups
    else
      p ← list_index (indexes st) (active_group st);
      wa ← getitem (weights st) (Z.of_nat p);
      if Qle_bool 1 wa then
        (* Active group is at or above 1.  Make other weights zero. *)
        groups ← assign_collected (weights st) (indexes st) (λ _, true)
                   (λ _, 0%Q) groups;
        set_weight groups (active_group st) 1
      else
        ga ← getitem groups (active_group st);
        let bias := (1 - weight ga)%Q in
        if truthy (sum_other st) then
          assign_collected (weights st) (indexes st)
            (λ i, negb (i =? active_group st)%Z)
            (λ weight, bias * (weight / sum_other st))%Q groups
        else if truthy (sum st) && (1 <? length (weights st)) then
          let weight := (bias * (1 / inject_Z (Z.of_nat (length (weights st)))))%Q in
          for_each (seq 0 (length (weights st)))
            (λ x groups,
               i ← getitem (indexes st) (Z.of_nat x);
               if negb (i =? active_group st)%Z
               then set_weight groups i weight else Ok groups)
            groups
        else Ok groups
  else Ok groups.

(** [for vert in obj.data.vertices: ...] of [normalize_armature]: the
    vertices are processed in order and independently; an exception stops
    the loop (the vertices mutated so far are not reported). *)
Fixpoint normalize_vertices (bone_indexes : gset nat) (active_index : nat)
    (vertices : list (list VertexGroupElement))
  : result (list (list VertexGroupElement)) :=
  match vertices with
  | [] => Ok []
  | groups :: vertices' =>
      groups' ← normalize_vertex bone_indexes active_index groups;
      vertices'' ← normalize_vertices bone_indexes active_index vertices';
      Ok (groups' :: vertices'')
  end.

(** ** The host: modes, tool settings, selection *)

(** Modelled from the spec: the host's interaction modes (section 6,
    "Mode/selection state"; section 9 asks for a closed enumeration).
    These are the values of Blender's [context.mode] for a mesh object. *)
Inductive context_mode :=
| EDIT_MESH | SCULPT | PAINT_WEIGHT | PAINT_VERTEX | PAINT_TEXTURE
| PARTICLE | OBJECT.

#[global] Instance context_mode_eq_dec : EqDecision context_mode.
Proof. solve_decision. Defined.

Definition mode_name (m : context_mode) : string :=
  match m with
  | EDIT_MESH => "EDIT_MESH"
  | SCULPT => "SCULPT"
  | PAINT_WEIGHT => "PAINT_WEIGHT"
  | PAINT_VERTEX => "PAINT_VERTEX"
  | PAINT_TEXTURE => "PAINT_TEXTURE"
  | PARTICLE => "PARTICLE"
  | OBJECT => "OBJECT"
  end.

(** Modelled from the spec: the two-way mapping between the names of
    [context.mode] and the names [bpy.ops.object.mode_set] takes (section
    9).  The function gives the context mode an object-mode name leads to;
    a name outside the operator's enumeration is refused. *)
Definition object_mode (name : string) : option context_mode :=
  if decide (name = "OBJECT") then Some OBJECT
  else if decide (name = "EDIT") then Some EDIT_MESH
  else if decide (name = "SCULPT") then Some SCULPT
  else if decide (name = "VERTEX_PAINT") then Some PAINT_VERTEX
  else if decide (name = "WEIGHT_PAINT") then Some PAINT_WEIGHT
  else if decide (name = "TEXTURE_PAINT") then Some PAINT_TEXTURE
  else if decide (name = "PARTICLE_EDIT") then Some PARTICLE
  else None.

(** A modifier of the object: [mod.type], [mod.use_vertex_groups] and, when
    [mod.object] is set, the names of [mod.object.data.bones]. *)
Record Modifier := {
  mod_type : string;
  use_vertex_groups : bool;
  mod_object : option (list string)
}.

(** What the script reads and writes of the host's state:
    [obj.modifiers]; [obj.vertex_groups] (the name of the group at each
    index) and its [active_index]; [obj.data.vertices] (the [groups] of the
    vertex at each index); [context.mode];
    [context.scene.tool_settings.vertex_group_weight]; and the indices of
    the selected vertices. *)
Record State := {
  modifiers : list Modifier;
  vertex_groups : list string;
  active_index : nat;
  vertices : list (list VertexGroupElement);
  mode : context_mode;
  vertex_group_weight : Q;
  selected : gset nat
}.

Definition with_mode (m : context_mode) (st : State) : State :=
  {| modifiers := modifiers st; vertex_groups := vertex_groups st;
     active_index := active_index st; vertices := vertices st;
     mode := m; vertex_group_weight := vertex_group_weight st;
     selected := selected st |}.

Definition with_vertex_group_weight (w : Q) (st : State) : State :=
  {| modifiers := modifiers st; vertex_groups := vertex_groups st;
     active_index := active_index st; vertices := vertices st;
     mode := mode st; vertex_group_weight := w;
     selected := selected st |}.

Definition with_active_index (a : nat) (st : State) : State :=
  {| modifiers := modifiers st; vertex_groups := vertex_groups st;
     active_index := a; vertices := vertices st;
     mode := mode st; vertex_group_weight := vertex_group_weight st;
     selected := selected st |}.

Definition with_selected (sel : gset nat) (st : State) : State :=
  {| modifiers := modifiers st; vertex_groups := vertex_groups st;
     active_index := active_index st; vertices := vertices st;
     mode := mode st; vertex_group_weight := vertex_group_weight st;
     selected := sel |}.

Definition with_vertices (vs : list (list VertexGroupElement)) (st : State)
  : State :=
  {| modifiers := modifiers st; vertex_groups := vertex_groups st;
     active_index := active_index st; vertices := vs;
     mode := mode st; vertex_group_weight := vertex_group_weight st;
     selected := selected st |}.

(** Modelled from the spec: the host's mode switch (section 6),
    [bpy.ops.object.mode_set(mode = name, toggle = False)].  It changes the
    interaction mode and nothing else; an unknown name is a [TypeError]. *)
Definition mode_set (name : string) (st : State) : result State :=
  match object_mode name with
  | Some m => Ok (with_mode m st)
  | None => Raise TypeError
  end.

(** Modelled from the spec: the host's selection state (section 6),
    [bpy.ops.mesh.select_all(action = 'DESELECT')]. *)
Definition select_all_DESELECT (st : State) : State := with_selected ∅ st.

(** Modelled from the spec: the host's selection state (section 6),
    [mesh.verts[vert].select = 1]. *)
Definition select_vert (vert : nat) (st : State) : result State :=
  if decide (vert < length (vertices st))
  then Ok (with_selected ({[vert]} ∪ selected st) st)
  else Raise IndexError.

(** Modelled from the spec: the host's "insert-at-zero" and "overwrite"
    of the vertex data (section 6).  Assigning a vertex to group [g] at
    weight [w] gives the vertex's element for [g] that weight; when there
    is none, one is appended. *)
Fixpoint assign_weight (g : nat) (w : Q) (groups : list VertexGroupElement)
  : list VertexGroupElement :=
  match groups with
  | [] => [ {| group := g; weight := w |} ]
  | e :: groups' =>
      if decide (group e = g) then with_weight w e :: groups'
      else e :: assign_weight g w groups'
  end.

(** Modelled from the spec: the membership primitive of section 6,
    [bpy.ops.object.vertex_group_assign()]: every selected vertex is
    assigned to the active group at the tool settings' weight. *)
Definition vertex_group_assign (st : State) : State :=
  with_vertices
    (imap (λ i groups,
             if decide (i ∈ selected st)
             then assign_weight (active_index st) (vertex_group_weight st) groups
             else groups)
          (vertices st))
    st.

(** ** [restore_mode] *)

(** [sub in s] on strings. *)
Fixpoint contains (sub s : string) : bool :=
  String.prefix sub s ||
  match s with
  | EmptyString => false
  | String _ s' => contains sub s'
  end.

(** [s.split(sep)] for a one-character separator. *)
Fixpoint split (sep : ascii) (s : string) : list string :=
  match s with
  | EmptyString => [EmptyString]
  | String c s' =>
      if Ascii.eqb c sep then EmptyString :: split sep s'
      else match split sep s' with
           | [] => [String c EmptyString]
           | p :: ps => String c p :: ps
           end
  end.

Definition restore_mode (mode : string) (st : State) : result State :=
  mode ←
    (if contains "EDIT" mode then Ok "EDIT"%string
     else if contains "_" mode then
       let mode := split "_"%char mode in
       last ← getitem mode (-1);
       first ← getitem mode 0;
       Ok (last +:+ "_" +:+ first)
     else Ok mode);
  mode_set mode st.

(** ** [assign_all_groups] *)

(** [any(index == group_info.group for group_info in vert.groups)] *)
Definition in_group (index : nat) (groups : list VertexGroupElement) : bool :=
  existsb (λ group_info, bool_decide (index = group group_info)) groups.

(** The body of [for vert in obj.data.vertices] that fills [not_found];
    [x] ranges over the positions of [group_indexes], which are the
    positions of [not_found]. *)
Definition not_found_step (group_indexes : list nat)
    (not_found : list (list nat))
    (vert : nat * list VertexGroupElement) : list (list nat) :=
  fold_left
    (λ not_found '(x, index),
       if negb (in_group index vert.2)
       then alter (λ l, l ++ [vert.1]) x not_found
       else not_found)
    (enumerate group_indexes) not_found.

Definition find_not_found (group_indexes : list nat)
    (vertices : list (list VertexGroupElement)) : list (list nat) :=
  fold_left (not_found_step group_indexes) (enumerate vertices)
            (map (λ _, []) group_indexes).

(** One round of the second loop: select the vertices found missing from
    the group at position [x] and add them to it. *)
Definition assign_round (group_indexes : list nat)
    (not_found : list (list nat)) (x : nat) (st : State) : result State :=
  let st := select_all_DESELECT st in
  verts ← getitem not_found (Z.of_nat x);
  st ← for_each verts select_vert st;
  index ← getitem group_indexes (Z.of_nat x);
  let st := with_active_index index st in
  Ok (vertex_group_assign st).

Definition assign_all_groups (group_indexes : list nat) (st : State)
  : result State :=
  (* Save state *)
  let mode := mode_name (mode st) in
  let old_weight := vertex_group_weight st in
  (* Set state *)
  st ← mode_set "EDIT" st;
  let active_index := active_index st in
  let st := with_vertex_group_weight 0 st in
  (* Find vertices not in groups *)
  let not_found := find_not_found group_indexes (vertices st) in
  (* Select vertices not in groups and add them (at 0 weight) *)
  st ← for_each (seq 0 (length group_indexes))
         (assign_round group_indexes not_found) st;
  (* Restore previous state *)
  st ← restore_mode mode st;
  let st := with_vertex_group_weight old_weight st in
  Ok (with_active_index active_index st).

(** ** [normalize_armature] *)

Inductive report_type := ERROR | WARNING.
Inductive operator_return := FINISHED | CANCELLED.

(** What a call of the operator leaves behind: the messages passed to
    [cls.report], the returned set and the host's state. *)
Record outcome := {
  reports : list (report_type * string);
  returned : operator_return;
  final : State
}.

(** [mod.type == 'ARMATURE' and mod.use_vertex_groups and mod.object] *)
Definition qualifies (m : Modifier) : bool :=
  bool_decide (mod_type m = "ARMATURE"%string) && use_vertex_groups m
  && bool_decide (is_Some (mod_object m)).

(** The loop that finds the armature, with its [break]; it returns the
    final values of [bones] and [armatures]. *)
Fixpoint find_armature (modifiers : list Modifier) (bones : list string)
    (armatures : nat) : list string * nat :=
  match modifiers with
  | [] => (bones, armatures)
  | m :: modifiers' =>
      if qualifies m then
        let bones := default [] (mod_object m) in
        let armatures := armatures + 1 in
        if armatures =? 2 then (bones, armatures)
        else find_armature modifiers' bones armatures
      else find_armature modifiers' bones armatures
  end.

(** [[group.index for group in obj.vertex_groups if group.name in bones]] *)
Definition get_bone_indexes (vertex_groups : list string)
    (bones : list string) : list nat :=
  omap (λ '(index, name), if bool_decide (name ∈ bones) then Some index else None)
       (enumerate vertex_groups).

Definition no_armature_msg : string := "No armature found on object.".
Definition not_on_armature_msg : string :=
  "Current vertex group not found on armature.".
Definition multiple_armatures_msg : string :=
  "Multiple armatures found on object.  Operator may have unexpected results.".

(** The operator from the error checking on, for the values of [bones] and
    [armatures] the modifier loop has left. *)
Definition normalize_with (bones : list string) (armatures : nat)
    (st : State) : result outcome :=
  (* Error checking. *)
  if bool_decide (bones = []) then
    Ok {| reports := [(ERROR, no_armature_msg)]; returned := CANCELLED;
          final := st |}
  else
    active_name ←
      match vertex_groups st !! active_index st with
      | Some name => Ok name
      | None => Raise AttributeError
      end;
    if negb (bool_decide (active_name ∈ bones)) then
      Ok {| reports := [(ERROR, not_on_armature_msg)]; returned := CANCELLED;
            final := st |}
    else
      let reports :=
        if 1 <? armatures then [(WARNING, multiple_armatures_msg)] else [] in
      (* Get bone indexes *)
      let bone_indexes := get_bone_indexes (vertex_groups st) bones in
      st ← assign_all_groups bone_indexes st;
      let bone_indexes : gset nat := list_to_set bone_indexes in
      let active_index := active_index st in
      vertices ← normalize_vertices bone_indexes active_index (vertices st);
      Ok {| reports := reports; returned := FINISHED;
            final := with_vertices vertices st |}.

Definition normalize_armature (st : State) : result outcome :=
  let '(bones, armatures) := find_armature (modifiers st) [] 0 in
  normalize_with bones armatures st.

Definition vge (g : nat) (w : Q) : VertexGroupElement :=
  {| group := g; weight := w |}.

(** * Properties *)

(** ** The error monad and Python indexing *)

Lemma py_pos_nat (n k : nat) : k < n → py_pos n (Z.of_nat k) = Some k.
Proof.
  intros Hk. unfold py_pos.
  destruct (Z.leb_spec 0 (Z.of_nat k)); [|lia].
  destruct (Z.ltb_spec (Z.of_nat k) (Z.of_nat n)); [|lia].
  by rewrite Nat2Z.id.
Qed.

Lemma py_pos_nat_ge (n k : nat) : n ≤ k → py_pos n (Z.of_nat k) = None.
Proof.
  intros Hk. unfold py_pos.
  destruct (Z.leb_spec 0 (Z.of_nat k)); [|lia].
  by destruct (Z.ltb_spec (Z.of_nat k) (Z.of_nat n)); [lia|].
Qed.

Lemma getitem_nat {A} (l : list A) (k : nat) :
  getitem l (Z.of_nat k) =
  match l !! k with Some a => Ok a | None => Raise IndexError end.
Proof.
  unfold getitem. destruct (l !! k) as [x|] eqn:Hl.
  - rewrite py_pos_nat; [by rewrite Hl|]. by eapply lookup_lt_Some.
  - rewrite py_pos_nat_ge; [done|]. by apply lookup_ge_None.
Qed.

Lemma set_weight_nat groups (k : nat) w :
  k < length groups →
  set_weight groups (Z.of_nat k) w = Ok (alter (with_weight w) k groups).
Proof. intros Hk. unfold set_weight. by rewrite py_pos_nat. Qed.

Lemma set_weight_middle pre e suf w :
  set_weight (pre ++ e :: suf) (Z.of_nat (length pre)) w
  = Ok (pre ++ with_weight w e :: suf).
Proof.
  rewrite set_weight_nat; [|rewrite length_app; simpl; lia].
  f_equal. induction pre as [|x pre IH]; [done|]. simpl. by f_equal.
Qed.

Lemma alter_middle {A} (f : A → A) (pre : list A) e suf :
  alter f (length pre) (pre ++ e :: suf) = pre ++ f e :: suf.
Proof. induction pre as [|x pre IH]; [done|]. simpl. by f_equal. Qed.

(** ** What the gathering loop computes *)

Section vertex.
Context (bone_indexes : gset nat) (active_index : nat).

Local Abbreviation collected e := (group e ∈ bone_indexes).

(** The elements of the vertex after the loop: the collected ones are
    clamped in place. *)
Definition clamped (e : VertexGroupElement) : VertexGroupElement :=
  if decide (collected e) then with_weight (clamp (weight e)) e else e.

(** Position and clamped weight of the collected elements: [indexes]
    and [weights] side by side. *)
Fixpoint collect_from (k : nat) (groups : list VertexGroupElement)
  : list (Z * Q) :=
  match groups with
  | [] => []
  | e :: groups' =>
      if decide (collected e)
      then (Z.of_nat k, clamp (weight e)) :: collect_from (S k) groups'
      else collect_from (S k) groups'
  end.

(** Sum of the weights on the armature's groups. *)
Fixpoint armature_sum (groups : list VertexGroupElement) : Q :=
  match groups with
  | [] => 0
  | e :: groups' =>
      if decide (collected e) then weight e + armature_sum groups'
      else armature_sum groups'
  end.

(** Sum of the weights on the armature's groups other than the active
    one. *)
Fixpoint other_sum (groups : list VertexGroupElement) : Q :=
  match groups with
  | [] => 0
  | e :: groups' =>
      if decide (collected e ∧ group e ≠ active_index)
      then weight e + other_sum groups'
      else other_sum groups'
  end.

(** The position of the last collected element of the active group,
    [d] when there is none. *)
Fixpoint last_active (k : nat) (groups : list VertexGroupElement) (d : Z) : Z :=
  match groups with
  | [] => d
  | e :: groups' =>
      last_active (S k) groups'
        (if decide (collected e ∧ group e = active_index)
         then Z.of_nat k else d)
  end.

Lemma gather_step_in st x e :
  collected e →
  gather_step bone_indexes active_index st (x, e) =
  {| g_groups := alter (with_weight (clamp (weight e))) x (g_groups st);
     weights := weights st ++ [clamp (weight e)];
     indexes := indexes st ++ [Z.of_nat x];
     sum := (sum st + clamp (weight e))%Q;
     sum_other :=
       if decide (group e ≠ active_index)
       then (sum_other st + clamp (weight e))%Q else sum_other st;
     active_group :=
       if decide (group e ≠ active_index) then active_group st
       else Z.of_nat x |}.
Proof. intros H. unfold gather_step. by rewrite decide_True. Qed.

Lemma gather_step_out st x e :
  ¬ collected e → gather_step bone_indexes active_index st (x, e) = st.
Proof. intros H. unfold gather_step. by rewrite decide_False. Qed.

Lemma gather_loop suf : ∀ pre st,
  g_groups st = pre ++ suf →
  let st' := fold_left (gather_step bone_indexes active_index)
               (enumerate_from (length pre) suf) st in
  g_groups st' = pre ++ map (clamped) suf ∧
  weights st' = weights st ++ (collect_from (length pre) suf).*2 ∧
  indexes st' = indexes st ++ (collect_from (length pre) suf).*1 ∧
  (sum st' == sum st + armature_sum (map (clamped) suf))%Q ∧
  (sum_other st' == sum_other st + other_sum (map (clamped) suf))%Q ∧
  active_group st' = last_active (length pre) suf (active_group st).
Proof.
  induction suf as [|e suf IH]; intros pre st Hg.
  - rewrite app_nil_r in Hg. simpl. rewrite !app_nil_r.
    repeat split; try done; ring.
  - cbn [enumerate_from fold_left map collect_from last_active armature_sum other_sum].
    specialize (IH (pre ++ [clamped e])).
    rewrite length_app, Nat.add_1_r in IH.
    unfold clamped in *.
    destruct (decide (collected e)) as [Hin|Hout].
    + rewrite gather_step_in by done.
      match goal with |- context [fold_left _ _ ?s] => specialize (IH s) end.
      cbn [g_groups weights indexes sum sum_other active_group] in IH.
      destruct IH as (H1 & H2 & H3 & H4 & H5 & H6).
      { rewrite Hg, alter_middle. by rewrite <- app_assoc. }
      cbn zeta. rewrite H1, H2, H3, H6.
      rewrite <- !app_assoc. cbn [fmap list_fmap fst snd app group weight with_weight].
      repeat split; try done.
      * rewrite H4. rewrite decide_True by done. ring.
      * rewrite H5.
        destruct (decide (group e ≠ active_index)).
        -- rewrite decide_True by done. ring.
        -- rewrite decide_False by tauto. ring.
      * destruct (decide (group e ≠ active_index)).
        -- by rewrite decide_False by tauto.
        -- rewrite decide_True; [done|]. split; [done|].
           by destruct (decide (group e = active_index)).
    + rewrite gather_step_out by done.
      specialize (IH st). destruct IH as (H1 & H2 & H3 & H4 & H5 & H6).
      { rewrite Hg. by rewrite <- app_assoc. }
      cbn zeta. rewrite H1, H2, H3, H6.
      rewrite <- !app_assoc. cbn [app]. repeat split; try done.
      * rewrite H4. rewrite decide_False by tauto. done.
      * rewrite H5. rewrite decide_False by tauto. done.
      * by rewrite decide_False by tauto.
Qed.
Lemma gather_spec groups :
  let st := gather bone_indexes active_index groups in
  g_groups st = map clamped groups ∧
  weights st = (collect_from 0 groups).*2 ∧
  indexes st = (collect_from 0 groups).*1 ∧
  (sum st == armature_sum (map clamped groups))%Q ∧
  (sum_other st == other_sum (map clamped groups))%Q ∧
  active_group st = last_active 0 groups (-1).
Proof.
  destruct (gather_loop groups [] (gather_init groups) eq_refl)
    as (H1 & H2 & H3 & H4 & H5 & H6).
  unfold gather, enumerate. cbn zeta. simpl in *.
  rewrite H1, H2, H3, H6. repeat split; try done.
  - rewrite H4. ring.
  - rewrite H5. ring.
Qed.

(** ** What the assignment loops compute *)

(** The elements after a loop that assigns [f weight] to the collected
    elements whose position passes [cond]. *)
Fixpoint rewrite_from (cond : Z → bool) (f : Q → Q) (k : nat)
    (groups : list VertexGroupElement) : list VertexGroupElement :=
  match groups with
  | [] => []
  | e :: groups' =>
      (if decide (collected e) then
         if cond (Z.of_nat k) then with_weight (f (clamp (weight e))) e
         else with_weight (clamp (weight e)) e
       else e) :: rewrite_from cond f (S k) groups'
  end.

Lemma for_each_lookup {S} (body : Z → Q → S → result S) ws : ∀ ixs pre s,
  length ixs = length ws →
  for_each (enumerate_from (length pre) ws)
    (λ '(x, w) s, i ← getitem (pre ++ ixs) (Z.of_nat x); body i w s) s
  = for_each (zip ixs ws) (λ '(i, w) s, body i w s) s.
Proof.
  induction ws as [|w ws IH]; intros ixs pre s Hlen.
  - by destruct ixs.
  - destruct ixs as [|i ixs]; [done|]. simpl.
    rewrite getitem_nat, list_lookup_middle by done. simpl.
    destruct (body i w s) as [s'|]; [|done]. simpl.
    specialize (IH ixs (pre ++ [i]) s').
    rewrite length_app, Nat.add_1_r, <- app_assoc in IH. simpl in IH.
    apply IH. simpl in Hlen. lia.
Qed.

Lemma for_each_range {S} (body : Z → S → result S) (ws : list Q) : ∀ k s,
  for_each (seq k (length ws)) (λ x s, body (Z.of_nat x) s) s
  = for_each (enumerate_from k ws) (λ '(x, _) s, body (Z.of_nat x) s) s.
Proof.
  induction ws as [|w ws IH]; intros k s; [done|]. simpl.
  destruct (body (Z.of_nat k) s); [|done]. simpl. apply IH.
Qed.

Lemma collect_from_loop (cond : Z → bool) (f : Q → Q) suf : ∀ pre,
  for_each (collect_from (length pre) suf)
    (λ '(i, w) (groups : list VertexGroupElement),
       if cond i then set_weight groups i (f w) else Ok groups)
    (pre ++ map clamped suf)
  = Ok (pre ++ rewrite_from cond f (length pre) suf).
Proof.
  induction suf as [|e suf IH]; intros pre; [done|].
  specialize (IH (pre ++ [hd e (rewrite_from cond f (length pre) [e])])).
  rewrite length_app, Nat.add_1_r, <- !app_assoc in IH.
  simpl in *. unfold clamped at 1.
  destruct (decide (collected e)); [|done].
  simpl. destruct (cond (Z.of_nat (length pre))); simpl.
  - rewrite set_weight_middle. simpl. apply IH.
  - apply IH.
Qed.

Lemma assign_collected_zip (cond : Z → bool) (f : Q → Q)
    (cl : list (Z * Q)) (groups : list VertexGroupElement) :
  assign_collected cl.*2 cl.*1 cond f groups
  = for_each cl
      (λ '(i, w) groups,
         if cond i then set_weight groups i (f w) else Ok groups)
      groups.
Proof.
  unfold assign_collected, enumerate. etrans.
  { apply (for_each_lookup
             (λ i w (groups : list VertexGroupElement),
                if cond i then set_weight groups i (f w) else Ok groups)
             _ _ []).
    change (length cl.*1 = length cl.*2). by rewrite !length_fmap. }
  f_equal. apply zip_fst_snd.
Qed.

Lemma assign_collected_spec (cond : Z → bool) (f : Q → Q) groups :
  let st := gather bone_indexes active_index groups in
  assign_collected (weights st) (indexes st) cond f (g_groups st)
  = Ok (rewrite_from cond f 0 groups).
Proof.
  destruct (gather_spec groups) as (H1 & H2 & H3 & _).
  cbn zeta. rewrite H1, H2, H3, assign_collected_zip.
  apply (collect_from_loop cond f groups []).
Qed.
(** ** The element of the active group *)

(** [active_group] after the gathering loop, as a position with its
    element: the last collected element of the active group. *)
Fixpoint active_entry_from (k : nat) (groups : list VertexGroupElement)
  : option (nat * VertexGroupElement) :=
  match groups with
  | [] => None
  | e :: groups' =>
      match active_entry_from (S k) groups' with
      | Some r => Some r
      | None =>
          if decide (collected e ∧ group e = active_index)
          then Some (k, e) else None
      end
  end.

Definition active_entry := active_entry_from 0.

Lemma last_active_entry groups : ∀ k d,
  last_active k groups d =
  match active_entry_from k groups with
  | Some (p, _) => Z.of_nat p
  | None => d
  end.
Proof.
  induction groups as [|e groups IH]; intros k d; [done|]. simpl.
  rewrite IH. destruct (active_entry_from (S k) groups) as [[p ?]|]; [done|].
  by destruct (decide _).
Qed.

Lemma active_entry_from_Some groups : ∀ k p e,
  active_entry_from k groups = Some (p, e) →
  k ≤ p ∧ groups !! (p - k) = Some e ∧ collected e ∧ group e = active_index.
Proof.
  induction groups as [|x groups IH]; intros k p e; [done|]. simpl.
  destruct (active_entry_from (S k) groups) as [[p' e']|] eqn:Hr.
  - intros [= -> ->]. destruct (IH _ _ _ Hr) as (Hk & Hl & Hc).
    split; [lia|]. split; [|done].
    by replace (p - k) with (S (p - S k)) by lia.
  - destruct (decide _) as [Hc|]; [|done]. intros [= -> ->].
    rewrite Nat.sub_diag. by split; [lia|].
Qed.

Lemma active_entry_from_None groups : ∀ k,
  active_entry_from k groups = None →
  ∀ e, e ∈ groups → ¬ (collected e ∧ group e = active_index).
Proof.
  induction groups as [|x groups IH]; intros k Hn e He.
  - by apply elem_of_nil in He.
  - simpl in Hn. destruct (active_entry_from (S k) groups) eqn:Hr; [done|].
    destruct (decide _) as [|Hx]; [done|].
    apply elem_of_cons in He as [->|He]; [done|]. by eapply IH.
Qed.

(** The positions gathered in [indexes] are positions of the vertex's
    elements, in increasing order. *)
Lemma collect_from_ge groups : ∀ k i w,
  (i, w) ∈ collect_from k groups → (Z.of_nat k ≤ i)%Z.
Proof.
  induction groups as [|e groups IH]; intros k i w Hin.
  - by apply elem_of_nil in Hin.
  - simpl in Hin. destruct (decide _).
    + apply elem_of_cons in Hin as [[= -> ->]|Hin]; [lia|].
      apply IH in Hin. lia.
    + apply IH in Hin. lia.
Qed.

Lemma list_index_absent (l : list Z) v : v ∉ l → list_index l v = Raise ValueError.
Proof.
  induction l as [|y l IH]; intros Hv; [done|]. simpl.
  apply not_elem_of_cons in Hv as [Hy Hv].
  destruct (Z.eqb_spec y v); [congruence|]. by rewrite IH.
Qed.

Lemma list_index_collect groups : ∀ k p e,
  groups !! p = Some e → collected e →
  ∃ j, list_index (collect_from k groups).*1 (Z.of_nat (k + p)) = Ok j ∧
       (collect_from k groups).*2 !! j = Some (clamp (weight e)).
Proof.
  induction groups as [|x groups IH]; intros k p e Hl Hc; [done|].
  cbn [collect_from]. destruct p as [|p]; simpl in Hl.
  - injection Hl as ->. rewrite decide_True by done.
    rewrite !fmap_cons. cbn [list_index fst snd].
    rewrite Nat.add_0_r, Z.eqb_refl. by exists 0.
  - destruct (IH (S k) p e Hl Hc) as (j & Hj & Hw).
    replace (k + S p) with (S k + p) by lia.
    destruct (decide _); [|by exists j].
    rewrite !fmap_cons. cbn [list_index fst snd].
    destruct (Z.eqb_spec (Z.of_nat k) (Z.of_nat (S k + p))); [lia|].
    rewrite Hj. by exists (S j).
Qed.
Lemma length_rewrite_from cond f groups : ∀ k,
  length (rewrite_from cond f k groups) = length groups.
Proof. induction groups as [|e groups IH]; intros k; simpl; [done|]. by rewrite IH. Qed.

Lemma range_loop_collected (ws : list Q) (ixs : list Z) (cond : Z → bool)
    (w : Q) (groups : list VertexGroupElement) :
  for_each (seq 0 (length ws))
    (λ x groups,
       i ← getitem ixs (Z.of_nat x);
       if cond i then set_weight groups i w else Ok groups)
    groups
  = assign_collected ws ixs cond (λ _, w) groups.
Proof.
  unfold assign_collected, enumerate.
  apply (for_each_range
           (λ x (groups : list VertexGroupElement),
              i ← getitem ixs x;
              if cond i then set_weight groups i w else Ok groups) ws 0).
Qed.

Lemma weight_clamped e : collected e → weight (clamped e) = clamp (weight e).
Proof. intros Hc. unfold clamped. by rewrite decide_True. Qed.

(** ** The per-vertex algorithm, branch by branch *)

Definition normalize_vertex_cases (groups : list VertexGroupElement)
  : result (list VertexGroupElement) :=
  let st := gather bone_indexes active_index groups in
  if negb (Qeq_bool (sum st) 1) then
    match active_entry groups with
    | None =>
        if truthy (sum_other st)
        then Ok (rewrite_from (λ _, true) (λ w, w / sum_other st)%Q 0 groups)
        else Raise ValueError
    | Some (pa, ea) =>
        let others i := negb (i =? Z.of_nat pa)%Z in
        if Qle_bool 1 (clamp (weight ea)) then
          Ok (alter (with_weight 1) pa
                (rewrite_from (λ _, true) (λ _, 0%Q) 0 groups))
        else
          let bias := (1 - clamp (weight ea))%Q in
          if truthy (sum_other st) then
            Ok (rewrite_from others
                  (λ w, bias * (w / sum_other st))%Q 0 groups)
          else if truthy (sum st) && (1 <? length (weights st)) then
            Ok (rewrite_from others
                  (λ _, bias * (1 / inject_Z (Z.of_nat (length (weights st)))))%Q
                  0 groups)
          else Ok (map clamped groups)
    end
  else Ok (map clamped groups).

Lemma normalize_vertex_eq groups :
  normalize_vertex bone_indexes active_index groups
  = normalize_vertex_cases groups.
Proof.
  unfold normalize_vertex, normalize_vertex_cases. cbn zeta.
  pose proof (λ cond f, assign_collected_spec cond f groups) as Hloop.
  cbn zeta in Hloop.
  destruct (gather_spec groups) as (H1 & H2 & H3 & _ & _ & H6).
  rewrite last_active_entry in H6. fold active_entry in H6.
  destruct (gather bone_indexes active_index groups)
    as [gg ag ws ixs s so].
  cbn [g_groups active_group weights indexes sum sum_other] in *.
  subst gg ws ixs ag.
  destruct (negb (Qeq_bool _ 1)); [|done].
  destruct (active_entry groups) as [[pa ea]|] eqn:Ha.
  - destruct (active_entry_from_Some _ _ _ _ Ha) as (_ & Hl & Hc & Hg).
    rewrite Nat.sub_0_r in Hl.
    destruct (Z.eqb_spec (Z.of_nat pa) (-1)); [lia|].
    cbn [andb].
    destruct (list_index_collect groups 0 pa ea Hl Hc) as (j & Hj & Hw).
    simpl in Hj. rewrite Hj. cbn [mbind result_bind].
    rewrite (getitem_nat _ j), Hw. cbn [mbind result_bind].
    destruct (Qle_bool 1 _).
    + rewrite Hloop. cbn [mbind result_bind].
      rewrite set_weight_nat; [done|].
      rewrite length_rewrite_from. by eapply lookup_lt_Some.
    + rewrite (getitem_nat _ pa), list_lookup_fmap, Hl.
      cbn [fmap option_fmap option_map mbind result_bind].
      rewrite !weight_clamped by done.
      destruct (truthy so); [apply Hloop|].
      destruct (truthy _ && _); [|done].
      rewrite <- Hloop, range_loop_collected. done.
  - change (-1 =? -1)%Z with true. cbn [andb].
    destruct (truthy so) eqn:Ht; [apply Hloop|].
    rewrite list_index_absent; [done|].
    intros Hin.
    apply list_elem_of_fmap in Hin as ([i w] & ? & Hin).
    apply collect_from_ge in Hin. simpl in *. lia.
Qed.
(** ** Elements of the result, position by position *)

Definition rewritten (cond : Z → bool) (f : Q → Q) (p : nat)
    (e : VertexGroupElement) : VertexGroupElement :=
  if decide (collected e) then
    if cond (Z.of_nat p) then with_weight (f (clamp (weight e))) e
    else with_weight (clamp (weight e)) e
  else e.

Lemma lookup_rewrite_from cond f groups : ∀ k p,
  rewrite_from cond f k groups !! p = rewritten cond f (k + p) <$> groups !! p.
Proof.
  induction groups as [|e groups IH]; intros k p; [done|].
  destruct p as [|p]; simpl.
  - by rewrite Nat.add_0_r.
  - rewrite IH. by replace (S k + p) with (k + S p) by lia.
Qed.

Lemma group_rewritten cond f p e : group (rewritten cond f p e) = group e.
Proof. unfold rewritten. by repeat case_match. Qed.

Lemma rewritten_out cond f p e : ¬ collected e → rewritten cond f p e = e.
Proof. intros H. unfold rewritten. by rewrite decide_False. Qed.

Lemma group_clamped e : group (clamped e) = group e.
Proof. unfold clamped. by case_match. Qed.

Lemma clamped_out e : ¬ collected e → clamped e = e.
Proof. intros H. unfold clamped. by rewrite decide_False. Qed.

(** Whatever branch is taken, the result has an element for the same
    group at every position, and the elements of groups outside
    [bone_indexes] are the ones the vertex had. *)
Lemma normalize_vertex_frame groups groups' :
  normalize_vertex bone_indexes active_index groups = Ok groups' →
  length groups' = length groups ∧
  ∀ k e, groups !! k = Some e →
    ∃ e', groups' !! k = Some e' ∧ group e' = group e ∧
          (¬ collected e → e' = e).
Proof.
  rewrite normalize_vertex_eq. unfold normalize_vertex_cases. cbn zeta.
  assert (Hclamp : length (map clamped groups) = length groups ∧
    ∀ k e, groups !! k = Some e →
      ∃ e', map clamped groups !! k = Some e' ∧ group e' = group e ∧
            (¬ collected e → e' = e)).
  { split; [by rewrite length_map|]. intros k e Hk.
    exists (clamped e). rewrite list_lookup_fmap, Hk.
    split; [done|]. split; [apply group_clamped|apply clamped_out]. }
  assert (Hrw : ∀ cond f, length (rewrite_from cond f 0 groups) = length groups ∧
    ∀ k e, groups !! k = Some e →
      ∃ e', rewrite_from cond f 0 groups !! k = Some e' ∧ group e' = group e ∧
            (¬ collected e → e' = e)).
  { intros cond f. split; [apply length_rewrite_from|]. intros k e Hk.
    exists (rewritten cond f k e). rewrite lookup_rewrite_from, Hk.
    split; [done|]. split; [apply group_rewritten|apply rewritten_out]. }
  destruct (negb _); [|by intros [= <-]].
  destruct (active_entry groups) as [[pa ea]|] eqn:Ha.
  - destruct (active_entry_from_Some _ _ _ _ Ha) as (_ & Hl & Hc & Hg).
    rewrite Nat.sub_0_r in Hl.
    destruct (Qle_bool 1 _).
    + intros [= <-]. destruct (Hrw (λ _, true) (λ _, 0%Q)) as [Hlen Hfr].
      split; [by rewrite length_alter|]. intros k e Hk.
      destruct (Hfr k e Hk) as (e' & He' & Hgr & Hout).
      destruct (decide (k = pa)) as [->|Hne].
      * exists (with_weight 1 e'). rewrite list_lookup_alter_eq, He'.
        split; [done|]. split; [done|]. intros Hn.
        rewrite Hl in Hk. by injection Hk as ->.
      * exists e'. by rewrite list_lookup_alter_ne.
    + destruct (truthy _); [by intros [= <-]|].
      destruct (truthy _ && _); by intros [= <-].
  - by destruct (truthy _); [intros [= <-]|].
Qed.
(** ** Sums of the rewritten weights *)

Lemma clamp_bounds w : (0 <= clamp w <= 1)%Q.
Proof.
  unfold clamp.
  destruct (Q.max_spec (Qmin w 1) 0) as [[? ->]|[? ->]];
    destruct (Q.min_spec w 1) as [[? Hm]|[? Hm]]; rewrite ?Hm in *; lra.
Qed.

Lemma clamp_id w : (0 <= w <= 1)%Q → clamp w = w.
Proof.
  intros [H0 H1]. unfold clamp, Qmax, Qmin, GenericMinMax.gmax, GenericMinMax.gmin.
  destruct (w ?= 1)%Q eqn:Hc.
  - destruct (w ?= 0)%Q eqn:Hc0; [done| |done].
    apply Qlt_alt in Hc0. lra.
  - destruct (w ?= 0)%Q eqn:Hc0; [done| |done].
    apply Qlt_alt in Hc0. lra.
  - apply Qgt_alt in Hc. lra.
Qed.

Lemma clamp_ge_1 w : (1 <= w)%Q → (clamp w == 1)%Q.
Proof.
  intros H. unfold clamp.
  destruct (Q.max_spec (Qmin w 1) 0) as [[? ->]|[? ->]];
    destruct (Q.min_spec w 1) as [[? Hm]|[? Hm]]; rewrite ?Hm in *; lra.
Qed.

Lemma truthy_true q : truthy q = true ↔ ¬ (q == 0)%Q.
Proof.
  unfold truthy. rewrite negb_true_iff. split.
  - intros H. by apply Qeq_bool_neq.
  - intros H. destruct (Qeq_bool q 0) eqn:E; [|done].
    by apply Qeq_bool_iff in E.
Qed.

Lemma truthy_false q : truthy q = false ↔ (q == 0)%Q.
Proof.
  unfold truthy. rewrite negb_false_iff. apply Qeq_bool_iff.
Qed.

Lemma armature_sum_in e groups :
  collected e → armature_sum (e :: groups) = (weight e + armature_sum groups)%Q.
Proof. intros H. simpl. by rewrite decide_True. Qed.

Lemma armature_sum_out e groups :
  ¬ collected e → armature_sum (e :: groups) = armature_sum groups.
Proof. intros H. simpl. by rewrite decide_False. Qed.

Lemma other_sum_in e groups :
  collected e → group e ≠ active_index →
  other_sum (e :: groups) = (weight e + other_sum groups)%Q.
Proof. intros H1 H2. simpl. by rewrite decide_True. Qed.

Lemma other_sum_out e groups :
  ¬ (collected e ∧ group e ≠ active_index) →
  other_sum (e :: groups) = other_sum groups.
Proof. intros H. simpl. by rewrite decide_False. Qed.

Lemma rewrite_from_cons cond f k e groups :
  rewrite_from cond f k (e :: groups)
  = rewritten cond f k e :: rewrite_from cond f (S k) groups.
Proof. done. Qed.

Lemma weight_rewritten cond f k e :
  collected e →
  weight (rewritten cond f k e)
  = if cond (Z.of_nat k) then f (clamp (weight e)) else clamp (weight e).
Proof. intros H. unfold rewritten. rewrite decide_True by done. by case_match. Qed.

Lemma collected_rewritten cond f k e :
  collected (rewritten cond f k e) ↔ collected e.
Proof. by rewrite group_rewritten. Qed.

Lemma collected_clamped e : collected (clamped e) ↔ collected e.
Proof. by rewrite group_clamped. Qed.

Lemma armature_sum_scaled c groups : ∀ k,
  (armature_sum (rewrite_from (λ _, true) (λ w, w / c) k groups)
   == armature_sum (map clamped groups) / c)%Q.
Proof.
  induction groups as [|e groups IH]; intros k.
  - simpl. unfold Qdiv. ring.
  - rewrite rewrite_from_cons, map_cons.
    destruct (decide (collected e)) as [Hc|Hc].
    + rewrite !armature_sum_in
        by (by apply collected_rewritten || by apply collected_clamped).
      rewrite weight_rewritten, weight_clamped, IH by done.
      unfold Qdiv. ring.
    + rewrite !armature_sum_out
        by (by rewrite collected_rewritten || by rewrite collected_clamped).
      apply IH.
Qed.

Lemma armature_sum_zeroed groups : ∀ k,
  (armature_sum (rewrite_from (λ _, true) (λ _, 0) k groups) == 0)%Q.
Proof.
  induction groups as [|e groups IH]; intros k; [done|].
  rewrite rewrite_from_cons.
  destruct (decide (collected e)) as [Hc|Hc].
  - rewrite armature_sum_in by (by apply collected_rewritten).
    rewrite weight_rewritten, IH by done. ring.
  - rewrite armature_sum_out by (by rewrite collected_rewritten). apply IH.
Qed.

Lemma armature_sum_alter w groups : ∀ p e,
  groups !! p = Some e → collected e →
  (armature_sum (alter (with_weight w) p groups)
   == armature_sum groups - weight e + w)%Q.
Proof.
  induction groups as [|x groups IH]; intros p e Hl Hc; [done|].
  destruct p as [|p]; simpl in Hl.
  - injection Hl as ->. change (alter (with_weight w) 0 (e :: groups))
      with (with_weight w e :: groups).
    rewrite !armature_sum_in by done. simpl. ring.
  - change (alter (with_weight w) (S p) (x :: groups))
      with (x :: alter (with_weight w) p groups).
    destruct (decide (collected x)).
    + rewrite !armature_sum_in, (IH _ _ Hl Hc) by done. ring.
    + rewrite !armature_sum_out by done. by apply IH.
Qed.

(** The active group's element is at position [pa] and nowhere else
    among the elements at positions [k], [k+1], ... *)
Definition only_active_at (pa k : nat) (groups : list VertexGroupElement) :=
  ∀ q e, groups !! q = Some e → collected e →
         (k + q = pa ↔ group e = active_index).

Lemma only_active_at_tail pa k e groups :
  only_active_at pa k (e :: groups) → only_active_at pa (S k) groups.
Proof.
  intros H q e' Hl Hc. rewrite <- (H (S q) e' Hl Hc). lia.
Qed.

Lemma only_active_at_head pa k e groups :
  only_active_at pa k (e :: groups) → collected e →
  (k = pa ↔ group e = active_index).
Proof. intros H Hc. rewrite <- (H 0 e eq_refl Hc). lia. Qed.

Lemma armature_sum_others pa b c groups : ∀ k,
  only_active_at pa k groups →
  (armature_sum
     (rewrite_from (λ i, negb (i =? Z.of_nat pa)%Z)
                   (λ w, b * (w / c)) k groups)
   == armature_sum (map clamped groups) - other_sum (map clamped groups)
      + b * (other_sum (map clamped groups) / c))%Q.
Proof.
  induction groups as [|e groups IH]; intros k Hu.
  - simpl. unfold Qdiv. ring.
  - specialize (IH (S k) (only_active_at_tail _ _ _ _ Hu)).
    rewrite rewrite_from_cons, map_cons.
    destruct (decide (collected e)) as [Hc|Hc].
    + pose proof (only_active_at_head _ _ _ _ Hu Hc) as Hu0.
      rewrite !armature_sum_in
        by (by apply collected_rewritten || by apply collected_clamped).
      rewrite weight_rewritten, weight_clamped, IH by done.
      destruct (Z.eqb_spec (Z.of_nat k) (Z.of_nat pa)) as [Heq|Hne]; cbn [negb].
      * rewrite other_sum_out; [ring|]. rewrite group_clamped.
        intros [_ Hn]. apply Hn, Hu0. lia.
      * rewrite other_sum_in, weight_clamped; [unfold Qdiv; ring|done|..].
        -- by apply collected_clamped.
        -- rewrite group_clamped. intros Hn. apply Hu0 in Hn. lia.
    + rewrite !armature_sum_out
        by (by rewrite collected_rewritten || by rewrite collected_clamped).
      rewrite other_sum_out; [apply IH|].
      rewrite collected_clamped. tauto.
Qed.

Lemma other_sum_no_active groups :
  (∀ e, e ∈ groups → ¬ (collected e ∧ group e = active_index)) →
  (other_sum (map clamped groups) == armature_sum (map clamped groups))%Q.
Proof.
  induction groups as [|e groups IH]; intros Hn; [done|].
  rewrite map_cons. destruct (decide (collected e)) as [Hc|Hc].
  - rewrite other_sum_in, armature_sum_in, IH.
    + done.
    + intros e' He'. apply Hn. by right.
    + by apply collected_clamped.
    + by apply collected_clamped.
    + rewrite group_clamped. intros Hg. apply (Hn e); [by left|done].
  - rewrite other_sum_out, armature_sum_out, IH.
    + done.
    + intros e' He'. apply Hn. by right.
    + by rewrite collected_clamped.
    + rewrite collected_clamped. tauto.
Qed.

Lemma armature_sum_split pa ea groups : ∀ k,
  only_active_at pa k groups → k ≤ pa →
  groups !! (pa - k) = Some ea → collected ea →
  (armature_sum (map clamped groups)
   == other_sum (map clamped groups) + clamp (weight ea))%Q.
Proof.
  induction groups as [|e groups IH]; intros k Hu Hk Hl Hc; [done|].
  rewrite map_cons. destruct (decide (k = pa)) as [->|Hne].
  - rewrite Nat.sub_diag in Hl. injection Hl as ->.
    pose proof (only_active_at_head _ _ _ _ Hu Hc) as Hu0.
    rewrite armature_sum_in, other_sum_out, weight_clamped.
    + rewrite other_sum_no_active; [ring|].
      intros e' He' [Hc' Hg']. apply list_elem_of_lookup in He' as [q Hq].
      apply (Hu (S q) e' Hq Hc') in Hg'. lia.
    + done.
    + rewrite group_clamped. intros [_ Hn]. by apply Hn, Hu0.
    + by apply collected_clamped.
  - replace (pa - k) with (S (pa - S k)) in Hl by lia. simpl in Hl.
    specialize (IH (S k) (only_active_at_tail _ _ _ _ Hu) ltac:(lia) Hl Hc).
    destruct (decide (collected e)) as [Hce|Hce].
    + pose proof (only_active_at_head _ _ _ _ Hu Hce) as Hu0.
      rewrite armature_sum_in, other_sum_in, IH.
      * ring.
      * by apply collected_clamped.
      * rewrite group_clamped. intros Hn. by apply Hu0 in Hn.
      * by apply collected_clamped.
    + rewrite armature_sum_out, other_sum_out, IH.
      * done.
      * rewrite collected_clamped. tauto.
      * by rewrite collected_clamped.
Qed.
Lemma NoDup_only_active_at groups pa ea :
  NoDup (map group groups) → groups !! pa = Some ea →
  group ea = active_index → only_active_at pa 0 groups.
Proof.
  intros Hnd Hl Hg q e Hq _. simpl. split.
  - intros ->. rewrite Hl in Hq. by injection Hq as ->.
  - intros Hge. eapply (NoDup_lookup _ q pa); [done|..].
    + by rewrite list_lookup_fmap, Hq; simpl; rewrite Hge.
    + by rewrite list_lookup_fmap, Hl; simpl; rewrite Hg.
Qed.

(** A vertex is normalized when its clamped weights already sum to 1,
    when the groups other than the active one carry weight, or when the
    active group is at or above 1. *)
Definition normalizable (groups : list VertexGroupElement) : Prop :=
  (armature_sum (map clamped groups) == 1)%Q ∨
  (0 < other_sum (map clamped groups))%Q ∨
  (∃ e, e ∈ groups ∧ collected e ∧ group e = active_index ∧ (1 <= weight e)%Q).

Lemma normalize_vertex_sum groups groups' :
  NoDup (map group groups) →
  normalize_vertex bone_indexes active_index groups = Ok groups' →
  normalizable groups →
  (armature_sum groups' == 1)%Q.
Proof.
  intros Hnd. rewrite normalize_vertex_eq. unfold normalize_vertex_cases.
  cbn zeta. destruct (gather_spec groups) as (_ & _ & _ & Hs & Hso & _).
  destruct (gather bone_indexes active_index groups)
    as [gg ag ws ixs s so].
  cbn [g_groups active_group weights indexes sum sum_other] in *.
  destruct (Qeq_bool s 1) eqn:Hs1; cbn [negb].
  { intros [= <-] _. rewrite <- Hs. by apply Qeq_bool_iff. }
  apply Qeq_bool_neq in Hs1.
  destruct (active_entry groups) as [[pa ea]|] eqn:Ha.
  - destruct (active_entry_from_Some _ _ _ _ Ha) as (_ & Hl & Hc & Hg).
    pose proof Hl as Hl'. rewrite Nat.sub_0_r in Hl'.
    pose proof (NoDup_only_active_at _ _ _ Hnd Hl' Hg) as Hu.
    pose proof (armature_sum_split _ _ _ _ Hu (Nat.le_0_l _) Hl Hc) as Hsplit.
    destruct (Qle_bool 1 _) eqn:Hle.
    + intros [= <-] _.
      rewrite (armature_sum_alter _ _ pa (rewritten (λ _, true) (λ _, 0%Q) pa ea)).
      * rewrite armature_sum_zeroed, weight_rewritten by done. ring.
      * by rewrite lookup_rewrite_from, Hl'.
      * by apply collected_rewritten.
    + assert (Hlt : (clamp (weight ea) < 1)%Q).
      { apply Qnot_le_lt. intros H. apply Qle_bool_iff in H. congruence. }
      destruct (truthy so) eqn:Ht.
      * apply truthy_true in Ht. intros [= <-] _.
        rewrite (armature_sum_others _ _ _ _ _ Hu).
        rewrite Hsplit, <- Hso. field. done.
      * apply truthy_false in Ht. intros Hres [H1|[Hpos|(e & He & Hce & Hge & Hw)]].
        -- rewrite <- Hs in H1. done.
        -- rewrite <- Hso, Ht in Hpos. lra.
        -- apply list_elem_of_lookup in He as [q Hq].
           apply (Hu q e Hq Hce) in Hge. simpl in Hge. subst q.
           rewrite Hl' in Hq. injection Hq as ->.
           apply clamp_ge_1 in Hw. lra.
  - pose proof (active_entry_from_None _ _ Ha) as Hno.
    destruct (truthy so) eqn:Ht; [|done].
    apply truthy_true in Ht. intros [= <-] _.
    rewrite armature_sum_scaled.
    rewrite <- (other_sum_no_active _ Hno), <- Hso. field. done.
Qed.
Lemma with_weight_id e : with_weight (weight e) e = e.
Proof. by destruct e. Qed.

Lemma active_entry_unique groups pa ea :
  NoDup (map group groups) → groups !! pa = Some ea →
  collected ea → group ea = active_index →
  active_entry groups = Some (pa, ea).
Proof.
  intros Hnd Hl Hc Hg. destruct (active_entry groups) as [[p e]|] eqn:Ha.
  - destruct (active_entry_from_Some _ _ _ _ Ha) as (_ & Hp & Hce & Hge).
    rewrite Nat.sub_0_r in Hp.
    apply (NoDup_only_active_at _ _ _ Hnd Hl Hg p e Hp Hce) in Hge.
    simpl in Hge. subst p. rewrite Hl in Hp. by injection Hp as ->.
  - exfalso. eapply (active_entry_from_None _ _ Ha ea); [|done].
    by eapply list_elem_of_lookup_2.
Qed.

(** Case C: the active group's weight is in (0,1) and the other groups
    carry weight. *)
Lemma normalize_vertex_case_C groups pa ea :
  NoDup (map group groups) → groups !! pa = Some ea →
  collected ea → group ea = active_index →
  (0 < weight ea < 1)%Q → (0 < other_sum (map clamped groups))%Q →
  ∃ groups',
    normalize_vertex bone_indexes active_index groups = Ok groups' ∧
    groups' !! pa = Some ea ∧
    ∀ q e, groups !! q = Some e → collected e → group e ≠ active_index →
      ∃ e', groups' !! q = Some e' ∧ group e' = group e ∧
            (weight e' == (1 - weight ea)
                          * (clamp (weight e) / other_sum (map clamped groups)))%Q.
Proof.
  intros Hnd Hl Hc Hg Hw Hpos.
  rewrite normalize_vertex_eq. unfold normalize_vertex_cases. cbn zeta.
  rewrite (active_entry_unique _ _ _ Hnd Hl Hc Hg).
  pose proof (NoDup_only_active_at _ _ _ Hnd Hl Hg) as Hu.
  pose proof (armature_sum_split pa ea groups 0 Hu (Nat.le_0_l _)) as Hsplit.
  rewrite Nat.sub_0_r in Hsplit. specialize (Hsplit Hl Hc).
  assert (Hid : clamp (weight ea) = weight ea) by (apply clamp_id; lra).
  rewrite Hid in *.
  destruct (gather_spec groups) as (_ & _ & _ & Hs & Hso & _).
  destruct (gather bone_indexes active_index groups)
    as [gg ag ws ixs s so].
  cbn [g_groups active_group weights indexes sum sum_other] in *.
  destruct (Qeq_bool s 1) eqn:Hs1; cbn [negb].
  - apply Qeq_bool_iff in Hs1. eexists. split; [done|]. split.
    + rewrite list_lookup_fmap, Hl. simpl. unfold clamped.
      rewrite decide_True by done. by rewrite Hid, with_weight_id.
    + intros q e Hq Hce Hne. exists (clamped e).
      rewrite list_lookup_fmap, Hq. split; [done|].
      split; [apply group_clamped|]. rewrite weight_clamped by done.
      assert (HX : (1 - weight ea == other_sum (map clamped groups))%Q).
      { rewrite Hs1 in Hs. rewrite Hsplit in Hs. lra. }
      rewrite HX. field. lra.
  - replace (Qle_bool 1 (weight ea)) with false.
    2:{ symmetry. apply not_true_is_false. intros H.
        apply Qle_bool_iff in H. lra. }
    replace (truthy so) with true.
    2:{ symmetry. apply truthy_true. lra. }
    eexists. split; [done|]. split.
    + rewrite lookup_rewrite_from, Hl. simpl. unfold rewritten.
      rewrite decide_True by done. rewrite Z.eqb_refl. simpl.
      by rewrite Hid, with_weight_id.
    + intros q e Hq Hce Hne. eexists.
      rewrite lookup_rewrite_from, Hq. split; [done|].
      split; [apply group_rewritten|]. rewrite weight_rewritten by done.
      destruct (Z.eqb_spec (Z.of_nat (0 + q)) (Z.of_nat pa)) as [Heq|_].
      * exfalso. apply Hne, (Hu q e Hq Hce). lia.
      * simpl. by rewrite Hso.
Qed.

(** With an element for the active group at hand the lookups of the
    redistribution branch succeed. *)
Lemma normalize_vertex_Ok groups :
  active_index ∈ bone_indexes →
  (∃ e, e ∈ groups ∧ group e = active_index) →
  let st := gather bone_indexes active_index groups in
  (∃ groups', normalize_vertex bone_indexes active_index groups = Ok groups') ∧
  active_group st ≠ (-1)%Z ∧ weights st ≠ [] ∧ indexes st ≠ [] ∧
  ∃ p, list_index (indexes st) (active_group st) = Ok p ∧
       is_Some (weights st !! p).
Proof.
  intros Hin (e & He & Hg).
  destruct (active_entry groups) as [[pa ea]|] eqn:Ha.
  2:{ exfalso. apply (active_entry_from_None _ _ Ha e He).
      by rewrite Hg. }
  destruct (gather_spec groups) as (_ & H2 & H3 & _ & _ & H6).
  rewrite last_active_entry in H6. fold active_entry in H6.
  rewrite Ha in H6. cbn zeta.
  destruct (active_entry_from_Some _ _ _ _ Ha) as (_ & Hl & Hc & _).
  rewrite Nat.sub_0_r in Hl.
  destruct (list_index_collect groups 0 pa ea Hl Hc) as (j & Hj & Hw).
  simpl in Hj. split; [|rewrite H2, H3, H6; repeat split].
  - rewrite normalize_vertex_eq. unfold normalize_vertex_cases. cbn zeta.
    rewrite Ha. repeat case_match; eauto.
  - lia.
  - intros Hnil. by rewrite Hnil in Hw.
  - intros Hnil. by rewrite Hnil in Hj.
  - exists j. rewrite Hj, Hw. eauto.
Qed.

Lemma other_sum_zero groups :
  (∀ e, e ∈ groups → collected e → group e ≠ active_index →
        (clamp (weight e) == 0)%Q) →
  (other_sum (map clamped groups) == 0)%Q.
Proof.
  induction groups as [|e groups IH]; intros Hz; [done|].
  rewrite map_cons.
  destruct (decide (collected e ∧ group e ≠ active_index)) as [[Hc Hg]|Hn].
  - rewrite other_sum_in, weight_clamped, IH, (Hz e); try done.
    + by left.
    + intros e' He'. apply Hz. by right.
    + by apply collected_clamped.
    + by rewrite group_clamped.
  - rewrite other_sum_out, IH; [done|..].
    + intros e' He'. apply Hz. by right.
    + by rewrite collected_clamped, group_clamped.
Qed.

(** Without an element for the active group, and with no weight on the
    other groups, [indexes.index(active_group)] raises. *)
Lemma normalize_vertex_raises groups :
  (∀ e, e ∈ groups → group e ≠ active_index) →
  (∀ e, e ∈ groups → collected e → (clamp (weight e) == 0)%Q) →
  let st := gather bone_indexes active_index groups in
  active_group st = (-1)%Z ∧
  list_index (indexes st) (active_group st) = Raise ValueError ∧
  normalize_vertex bone_indexes active_index groups = Raise ValueError.
Proof.
  intros Hno Hz.
  assert (Ha : active_entry groups = None).
  { destruct (active_entry groups) as [[pa ea]|] eqn:Ha; [|done].
    destruct (active_entry_from_Some _ _ _ _ Ha) as (_ & Hl & _ & Hg).
    exfalso. eapply Hno; [|done]. by eapply list_elem_of_lookup_2. }
  pose proof (other_sum_zero groups (λ e He Hc _, Hz e He Hc)) as Hzero.
  pose proof (other_sum_no_active groups) as Hsame.
  rewrite Hzero in Hsame.
  destruct (gather_spec groups) as (_ & _ & H3 & Hs & Hso & H6).
  rewrite last_active_entry in H6. fold active_entry in H6.
  rewrite Ha in H6. cbn zeta. split; [done|].
  split.
  - rewrite H6. apply list_index_absent. rewrite H3. intros Hin.
    apply list_elem_of_fmap in Hin as ([i w] & ? & Hin).
    apply collect_from_ge in Hin. simpl in *. lia.
  - rewrite normalize_vertex_eq. unfold normalize_vertex_cases. cbn zeta.
    rewrite Ha.
    replace (Qeq_bool (sum (gather bone_indexes active_index groups)) 1)
      with false.
    2:{ symmetry. apply not_true_is_false. intros H.
        apply Qeq_bool_iff in H. rewrite Hs, <- Hsame in H; [lra|].
        intros e He [_ Hg]. by apply (Hno e He). }
    cbn [negb].
    replace (truthy (sum_other (gather bone_indexes active_index groups)))
      with false; [done|].
    symmetry. apply truthy_false. by rewrite Hso.
Qed.
End vertex.

(** ** The loop over the vertices *)

Lemma normalize_vertices_lookup bone_indexes active_index vs : ∀ vs',
  normalize_vertices bone_indexes active_index vs = Ok vs' →
  length vs' = length vs ∧
  ∀ i v, vs !! i = Some v →
    ∃ v', vs' !! i = Some v' ∧
          normalize_vertex bone_indexes active_index v = Ok v'.
Proof.
  induction vs as [|v0 vs IH]; intros vs'; simpl.
  - intros [= <-]. by split.
  - destruct (normalize_vertex _ _ v0) as [v0'|] eqn:Hv0; [|done]. simpl.
    destruct (normalize_vertices _ _ vs) as [vs''|]; [|done]. simpl.
    intros [= <-]. destruct (IH _ eq_refl) as [Hlen Hl].
    split; [simpl; by rewrite Hlen|].
    intros [|i] v Hi; simpl in *; [|by apply Hl].
    injection Hi as <-. eauto.
Qed.

Lemma normalize_vertices_Ok bone_indexes active_index vs :
  (∀ v, v ∈ vs → ∃ v', normalize_vertex bone_indexes active_index v = Ok v') →
  ∃ vs', normalize_vertices bone_indexes active_index vs = Ok vs'.
Proof.
  induction vs as [|v0 vs IH]; intros Hall; simpl; [by eexists|].
  destruct (Hall v0) as [v0' ->]; [by left|].
  destruct IH as [vs' ->]; [|by eexists].
  intros v Hv. apply Hall. by right.
Qed.

(** ** [assign_all_groups]: the vertices found missing from a group *)

(** The indices, counted from [k], of the vertices with no element for
    group [g]. *)
Fixpoint missing_from (k : nat) (g : nat)
    (vertices : list (list VertexGroupElement)) : list nat :=
  match vertices with
  | [] => []
  | groups :: vertices' =>
      if negb (in_group g groups) then k :: missing_from (S k) g vertices'
      else missing_from (S k) g vertices'
  end.

Lemma in_group_true g groups : in_group g groups = true ↔ g ∈ map group groups.
Proof.
  unfold in_group. rewrite existsb_exists, list_elem_of_fmap. split.
  - intros (e & He & Hg). apply bool_decide_eq_true in Hg.
    exists e. split; [done|]. by apply list_elem_of_In.
  - intros (e & -> & He). exists e. split; [by apply list_elem_of_In|].
    by apply bool_decide_eq_true.
Qed.

Lemma not_found_step_spec v (i : nat) (group_indexes : list nat) :
  ∀ (pre : list nat) (nf_pre nf : list (list nat)),
  length nf_pre = length pre → length nf = length group_indexes →
  fold_left
    (λ not_found '(x, index),
       if negb (in_group index v)
       then alter (λ l, l ++ [i]) x not_found else not_found)
    (enumerate_from (length pre) group_indexes) (nf_pre ++ nf)
  = nf_pre ++ zip_with (λ g l, if negb (in_group g v) then l ++ [i] else l)
                       group_indexes nf.
Proof.
  induction group_indexes as [|g gs IH]; intros pre nf_pre nf Hlen Hnf.
  - by destruct nf.
  - destruct nf as [|l nf]; [done|]. simpl.
    specialize (IH (pre ++ [g])
                  (nf_pre ++ [if negb (in_group g v) then l ++ [i] else l]) nf).
    rewrite !length_app, !Nat.add_1_r, <- !app_assoc in IH. simpl in IH.
    rewrite <- Hlen.
    destruct (negb _).
    + rewrite alter_middle, Hlen. apply IH; [by rewrite Hlen|]. simpl in Hnf. lia.
    + rewrite Hlen. apply IH; [by rewrite Hlen|]. simpl in Hnf. lia.
Qed.

Lemma not_found_step_eq group_indexes nf i v :
  length nf = length group_indexes →
  not_found_step group_indexes nf (i, v)
  = zip_with (λ g l, if negb (in_group g v) then l ++ [i] else l)
             group_indexes nf.
Proof. intros Hlen. by apply (not_found_step_spec v i group_indexes [] [] nf). Qed.

Lemma find_not_found_loop group_indexes vs : ∀ k nf,
  length nf = length group_indexes →
  fold_left (not_found_step group_indexes) (enumerate_from k vs) nf
  = zip_with (λ g l, l ++ missing_from k g vs) group_indexes nf.
Proof.
  induction vs as [|v vs IH]; intros k nf Hlen.
  - simpl. clear -Hlen. revert nf Hlen.
    induction group_indexes as [|g gs IH]; intros [|l nf] Hlen; try done.
    simpl in *. rewrite app_nil_r. f_equal. apply IH. lia.
  - cbn [enumerate_from fold_left missing_from].
    rewrite not_found_step_eq by done.
    rewrite IH by (rewrite length_zip_with; lia).
    clear -Hlen. revert nf Hlen.
    induction group_indexes as [|g gs IH]; intros [|l nf] Hlen; try done.
    simpl in *. rewrite IH by lia. f_equal.
    destruct (negb _); [by rewrite <- app_assoc|done].
Qed.

Lemma find_not_found_spec group_indexes vs :
  find_not_found group_indexes vs
  = map (λ g, missing_from 0 g vs) group_indexes.
Proof.
  unfold find_not_found, enumerate.
  rewrite find_not_found_loop by (by rewrite length_map).
  induction group_indexes as [|g gs IH]; [done|]. simpl. by rewrite IH.
Qed.

Lemma missing_from_spec g vs : ∀ k i,
  i ∈ missing_from k g vs ↔
  ∃ v, k ≤ i ∧ vs !! (i - k) = Some v ∧ in_group g v = false.
Proof.
  induction vs as [|v0 vs IH]; intros k i; simpl.
  - split; [by intros ?%elem_of_nil|by intros (? & ? & ? & ?)].
  - assert (Htail : (∃ v, S k ≤ i ∧ vs !! (i - S k) = Some v ∧ in_group g v = false)
              ↔ (∃ v, k < i ∧ (v0 :: vs) !! (i - k) = Some v ∧ in_group g v = false)).
    { split; intros (v & Hk & Hl & Hg); exists v; (split; [lia|]); split; try done.
      - by replace (i - k) with (S (i - S k)) by lia.
      - by replace (i - k) with (S (i - S k)) in Hl by lia. }
    destruct (in_group g v0) eqn:Hg0; simpl.
    + rewrite IH, Htail. split; intros (v & Hk & Hl & Hg); exists v.
      * split; [lia|done].
      * destruct (decide (i = k)) as [->|]; [|split; [lia|done]].
        rewrite Nat.sub_diag in Hl. simpl in Hl. congruence.
    + rewrite elem_of_cons, IH, Htail. split.
      * intros [->|(v & Hk & Hl & Hg)].
        -- exists v0. rewrite Nat.sub_diag. by split; [lia|].
        -- exists v. split; [lia|done].
      * intros (v & Hk & Hl & Hg).
        destruct (decide (i = k)) as [->|]; [by left|right].
        exists v. split; [lia|done].
Qed.

(** ** [assign_all_groups]: the effect on one vertex *)

(** What one round does to a vertex whose elements were [groups0] when
    the call started: it is assigned to [g] at weight 0 exactly when it
    was found missing from [g]. *)
Definition ensure_group (groups0 cur : list VertexGroupElement) (g : nat)
  : list VertexGroupElement :=
  if in_group g groups0 then cur else assign_weight g 0 cur.

(** All rounds, on one vertex. *)
Definition ensure_groups (group_indexes : list nat)
    (groups : list VertexGroupElement) : list VertexGroupElement :=
  fold_left (ensure_group groups) group_indexes groups.

Lemma select_vert_Ok i st :
  i < length (vertices st) →
  select_vert i st = Ok (with_selected ({[i]} ∪ selected st) st).
Proof. intros H. unfold select_vert. by rewrite decide_True. Qed.

Lemma select_verts (verts : list nat) : ∀ st,
  (∀ i, i ∈ verts → i < length (vertices st)) →
  for_each verts select_vert st
  = Ok (with_selected (list_to_set verts ∪ selected st) st).
Proof.
  induction verts as [|i verts IH]; intros st Hin; simpl.
  - rewrite (left_id_L ∅ (∪)). by destruct st.
  - rewrite select_vert_Ok by (apply Hin; by left).
    simpl. rewrite IH by (intros j Hj; apply Hin; by right).
    f_equal. destruct st; unfold with_selected; simpl. f_equal.
    apply leibniz_equiv. intros j.
    rewrite !elem_of_union, !elem_of_list_to_set, elem_of_singleton. tauto.
Qed.

Lemma missing_from_lt g vs i : i ∈ missing_from 0 g vs → i < length vs.
Proof.
  intros Hi. apply missing_from_spec in Hi as (v & _ & Hl & _).
  rewrite Nat.sub_0_r in Hl. by eapply lookup_lt_Some.
Qed.

Lemma assign_round_spec group_indexes vs0 x g st :
  group_indexes !! x = Some g →
  length (vertices st) = length vs0 →
  assign_round group_indexes
    (map (λ g, missing_from 0 g vs0) group_indexes) x st
  = Ok (with_vertices
          (zip_with (λ v0 cur, if in_group g v0 then cur
                               else assign_weight g (vertex_group_weight st) cur)
                    vs0 (vertices st))
          (with_active_index g
             (with_selected (list_to_set (missing_from 0 g vs0)) st))).
Proof.
  intros Hg Hlen. unfold assign_round.
  rewrite !getitem_nat, list_lookup_fmap, Hg. simpl.
  rewrite select_verts.
  2:{ intros i Hi. apply missing_from_lt in Hi. simpl. lia. }
  simpl. unfold vertex_group_assign, with_vertices; simpl.
  rewrite (right_id_L ∅ (∪)). f_equal. f_equal.
  apply list_eq. intros i.
  rewrite list_lookup_imap, lookup_zip_with.
  destruct (vertices st !! i) as [cur|] eqn:Hcur; simpl.
  - destruct (vs0 !! i) as [v0|] eqn:Hv0; simpl.
    2:{ apply lookup_ge_None in Hv0. apply lookup_lt_Some in Hcur. lia. }
    destruct (in_group g v0) eqn:Hin.
    + rewrite decide_False; [done|]. rewrite elem_of_list_to_set.
      intros Hi. apply missing_from_spec in Hi as (v & _ & Hl & Hf).
      rewrite Nat.sub_0_r in Hl. congruence.
    + rewrite decide_True; [done|]. rewrite elem_of_list_to_set.
      apply missing_from_spec. exists v0. rewrite Nat.sub_0_r.
      by split; [lia|].
  - by destruct (vs0 !! i).
Qed.

(** The state the second loop leaves, for the groups still to be
    processed. *)
Definition rounds_state (group_indexes : list nat)
    (vs0 : list (list VertexGroupElement)) (st : State) : State :=
  with_vertices
    (zip_with (λ v0 cur, fold_left (ensure_group v0) group_indexes cur)
              vs0 (vertices st))
    (with_active_index (default (active_index st) (last group_indexes))
       (with_selected
          (match last group_indexes with
           | Some g => list_to_set (missing_from 0 g vs0)
           | None => selected st
           end) st)).

Lemma zip_with_id_r {A B} (l1 : list A) (l2 : list B) :
  length l2 = length l1 → zip_with (λ _ y, y) l1 l2 = l2.
Proof.
  revert l2. induction l1 as [|x l1 IH]; intros [|y l2] Hlen; try done.
  simpl in *. f_equal. apply IH. lia.
Qed.

Lemma zip_with_twice {A B} (f g : A → B → B) (l1 : list A) (l2 : list B) :
  zip_with g l1 (zip_with f l1 l2) = zip_with (λ x y, g x (f x y)) l1 l2.
Proof.
  revert l2. induction l1 as [|x l1 IH]; intros [|y l2]; try done.
  simpl. by rewrite IH.
Qed.

Lemma assign_rounds group_indexes vs0 : ∀ suf pre st,
  group_indexes = pre ++ suf →
  length (vertices st) = length vs0 →
  vertex_group_weight st = 0%Q →
  for_each (seq (length pre) (length suf))
    (assign_round group_indexes
       (map (λ g, missing_from 0 g vs0) group_indexes)) st
  = Ok (rounds_state suf vs0 st).
Proof.
  induction suf as [|g suf IH]; intros pre st HG Hlen Hw.
  - simpl. unfold rounds_state. simpl. rewrite zip_with_id_r by done.
    by destruct st.
  - cbn [length seq for_each].
    rewrite (assign_round_spec _ _ _ g) by (by rewrite ?HG, ?list_lookup_middle).
    cbn [mbind result_bind]. rewrite Hw.
    specialize (IH (pre ++ [g])). rewrite length_app, Nat.add_1_r in IH.
    rewrite IH.
    + f_equal. unfold rounds_state. rewrite last_cons. cbn.
      rewrite zip_with_twice. destruct st; unfold with_vertices; cbn.
      by destruct (last suf).
    + by rewrite <- app_assoc.
    + cbn. rewrite length_zip_with. lia.
    + done.
Qed.

Lemma assign_rounds_all group_indexes st :
  vertex_group_weight st = 0%Q →
  for_each (seq 0 (length group_indexes))
    (assign_round group_indexes
       (map (λ g, missing_from 0 g (vertices st)) group_indexes)) st
  = Ok (rounds_state group_indexes (vertices st) st).
Proof. intros Hw. by apply (assign_rounds group_indexes (vertices st) group_indexes []). Qed.

(** ** [restore_mode] returns to every mode but [PARTICLE] *)

Lemma restore_mode_spec m st :
  restore_mode (mode_name m) st =
  if decide (m = PARTICLE) then Raise TypeError else Ok (with_mode m st).
Proof. by destruct m. Qed.

(** ** [assign_all_groups] as a whole *)

Definition assigned_state (group_indexes : list nat) (st : State) : State :=
  with_vertices (map (ensure_groups group_indexes) (vertices st))
    (with_selected
       (match last group_indexes with
        | Some g => list_to_set (missing_from 0 g (vertices st))
        | None => selected st
        end) st).

Lemma zip_with_ensure group_indexes vs :
  zip_with (λ v0 cur, fold_left (ensure_group v0) group_indexes cur) vs vs
  = map (ensure_groups group_indexes) vs.
Proof. induction vs as [|v vs IH]; [done|]. simpl. by rewrite IH. Qed.

Lemma assign_all_groups_spec group_indexes st :
  assign_all_groups group_indexes st =
  if decide (mode st = PARTICLE) then Raise TypeError
  else Ok (assigned_state group_indexes st).
Proof.
  unfold assign_all_groups. cbn [mode_set object_mode decide mbind result_bind].
  change (mode_set "EDIT" st) with (Ok (with_mode EDIT_MESH st)).
  cbn [mbind result_bind]. rewrite find_not_found_spec.
  rewrite assign_rounds_all by done.
  cbn [mbind result_bind]. rewrite restore_mode_spec.
  destruct (decide (mode st = PARTICLE)); [done|].
  cbn [mbind result_bind]. f_equal.
  unfold assigned_state, rounds_state.
  destruct st as [ms vg ai vs md w sel].
  cbn [vertices with_vertex_group_weight with_mode].
  rewrite zip_with_ensure. unfold with_vertices, with_active_index,
    with_vertex_group_weight, with_mode, with_selected. cbn. 
  by destruct (last group_indexes).
Qed.

(** ** What the guarantor adds to a vertex *)

Lemma assign_weight_app g w v added :
  g ∉ map group v → assign_weight g w (v ++ added) = v ++ assign_weight g w added.
Proof.
  induction v as [|e v IH]; intros Hg; [done|]. simpl.
  apply not_elem_of_cons in Hg as [Hne Hg].
  rewrite decide_False by done. by rewrite IH.
Qed.

Lemma assign_weight_present g added :
  (∀ e, e ∈ added → weight e = 0%Q) → g ∈ map group added →
  assign_weight g 0 added = added.
Proof.
  induction added as [|e added IH]; intros Hz Hg.
  - by apply elem_of_nil in Hg.
  - simpl. destruct (decide (group e = g)) as [Heq|Hne].
    + f_equal. destruct e as [ge we]. unfold with_weight. simpl.
      f_equal. symmetry. apply (Hz (vge ge we)). by left.
    + f_equal. apply IH.
      * intros e' He'. apply Hz. by right.
      * apply elem_of_cons in Hg as [Hg|Hg]; [done|done].
Qed.

Lemma assign_weight_fresh g w added :
  g ∉ map group added → assign_weight g w added = added ++ [vge g w].
Proof.
  induction added as [|e added IH]; intros Hg; [done|]. simpl.
  apply not_elem_of_cons in Hg as [Hne Hg].
  rewrite decide_False by done. by rewrite IH.
Qed.

(** The elements [added] to a vertex [v] for the groups [group_indexes]:
    one element per group the vertex lacked, each at weight 0, so that
    every group of [group_indexes] has an element. *)
Definition added_by (group_indexes : list nat)
    (v added : list VertexGroupElement) : Prop :=
  NoDup (map group added) ∧
  (∀ e, e ∈ added →
        weight e = 0%Q ∧ group e ∈ group_indexes ∧ group e ∉ map group v) ∧
  (∀ g, g ∈ group_indexes → g ∈ map group (v ++ added)).

Lemma ensure_groups_loop v : ∀ suf pre added,
  added_by pre v added →
  ∃ added', fold_left (ensure_group v) suf (v ++ added) = v ++ added' ∧
            added_by (pre ++ suf) v added'.
Proof.
  induction suf as [|g suf IH]; intros pre added Hadd.
  - exists added. by rewrite app_nil_r.
  - simpl. destruct Hadd as (Hnd & Hz & Hall).
    assert (Hpre : ∀ added1,
      added_by (pre ++ [g]) v added1 →
      ∃ added', fold_left (ensure_group v) suf (v ++ added1) = v ++ added' ∧
                added_by (pre ++ g :: suf) v added').
    { intros added1 H1. destruct (IH _ _ H1) as (added' & Hf & Ha).
      exists added'. split; [done|]. by rewrite <- app_assoc in Ha. }
    unfold ensure_group at 2. destruct (in_group g v) eqn:Hin.
    + apply in_group_true in Hin. apply Hpre. split; [done|]. split.
      * intros e He. destruct (Hz e He) as (? & ? & ?).
        split; [done|]. split; [|done]. apply elem_of_app. by left.
      * intros g' [Hg'|Hg']%elem_of_app; [by apply Hall|].
        apply list_elem_of_singleton in Hg' as ->.
        rewrite map_app. apply elem_of_app. by left.
    + assert (Hout : g ∉ map group v).
      { intros H. apply in_group_true in H. congruence. }
      rewrite assign_weight_app by done.
      destruct (decide (g ∈ map group added)) as [Hpres|Hfresh].
      * rewrite assign_weight_present; [|intros e He; by apply Hz|done].
        apply Hpre. split; [done|]. split.
        -- intros e He. destruct (Hz e He) as (? & ? & ?).
           split; [done|]. split; [|done]. apply elem_of_app. by left.
        -- intros g' [Hg'|Hg']%elem_of_app; [by apply Hall|].
           apply list_elem_of_singleton in Hg' as ->.
           rewrite map_app. apply elem_of_app. by right.
      * rewrite assign_weight_fresh by done. apply Hpre. split; [|split].
        -- rewrite map_app. apply NoDup_app. split; [done|]. split.
           ++ intros x Hx Hx'. apply list_elem_of_singleton in Hx'. by subst.
           ++ apply NoDup_singleton.
        -- intros e [He|He]%elem_of_app.
           ++ destruct (Hz e He) as (? & ? & ?).
              split; [done|]. split; [|done]. apply elem_of_app. by left.
           ++ apply list_elem_of_singleton in He as ->. simpl.
              split; [done|]. split; [|done]. apply elem_of_app. right.
              by apply list_elem_of_singleton.
        -- intros g' [Hg'|Hg']%elem_of_app.
           ++ specialize (Hall g' Hg'). rewrite !map_app in *.
              rewrite !elem_of_app in *. tauto.
           ++ apply list_elem_of_singleton in Hg' as ->.
              rewrite !map_app, !elem_of_app. right. right. by left.
Qed.

Lemma ensure_groups_spec group_indexes v :
  ∃ added, ensure_groups group_indexes v = v ++ added ∧
           added_by group_indexes v added.
Proof.
  destruct (ensure_groups_loop v group_indexes [] []) as (added & Hf & Ha).
  - split; [constructor|]. split; [by intros e ?%elem_of_nil|].
    by intros g ?%elem_of_nil.
  - exists added. rewrite app_nil_r in Hf. by split.
Qed.

(** ** [normalize_armature]: which groups, which outcome *)

(** The value of [bones] after the modifier loop. *)
Definition discovered_bones (st : State) : list string :=
  (find_armature (modifiers st) [] 0).1.

(** The list [bone_indexes] and the set made of it. *)
Definition bone_index_list (st : State) : list nat :=
  get_bone_indexes (vertex_groups st) (discovered_bones st).

Definition armature_group_ids (st : State) : gset nat :=
  list_to_set (bone_index_list st).

Lemma get_bone_indexes_from (bones vg : list string) : ∀ k i,
  i ∈ omap (λ '(index, name),
              if bool_decide (name ∈ bones) then Some index else None)
           (enumerate_from k vg)
  ↔ ∃ name : string, k ≤ i ∧ vg !! (i - k) = Some name ∧ name ∈ bones.
Proof.
  induction vg as [|n0 vg IH]; intros k i.
  - simpl. split; [by intros ?%elem_of_nil|by intros (? & ? & ? & ?)].
  - cbn [enumerate_from omap list_omap].
    assert (Htail : (∃ name : string, S k ≤ i ∧ vg !! (i - S k) = Some name ∧ name ∈ bones)
              ↔ (∃ name : string, k < i ∧ (n0 :: vg) !! (i - k) = Some name ∧ name ∈ bones)).
    { split; intros (v & Hk & Hl & Hg); exists v; (split; [lia|]); split; try done.
      - by replace (i - k) with (S (i - S k)) by lia.
      - by replace (i - k) with (S (i - S k)) in Hl by lia. }
    destruct (bool_decide (n0 ∈ bones)) eqn:Hb.
    + apply bool_decide_eq_true in Hb.
      rewrite elem_of_cons, IH, Htail. split.
      * intros [->|(v & Hk & Hl & Hg)].
        -- exists n0. rewrite Nat.sub_diag. by split; [lia|].
        -- exists v. split; [lia|done].
      * intros (v & Hk & Hl & Hg).
        destruct (decide (i = k)) as [->|]; [by left|right].
        exists v. split; [lia|done].
    + apply bool_decide_eq_false in Hb.
      rewrite IH, Htail. split; intros (v & Hk & Hl & Hg); exists v.
      * split; [lia|done].
      * destruct (decide (i = k)) as [->|]; [|split; [lia|done]].
        rewrite Nat.sub_diag in Hl. simpl in Hl. congruence.
Qed.

Lemma get_bone_indexes_spec (bones vg : list string) i :
  i ∈ get_bone_indexes vg bones ↔
  ∃ name : string, vg !! i = Some name ∧ name ∈ bones.
Proof.
  unfold get_bone_indexes, enumerate. rewrite get_bone_indexes_from.
  rewrite Nat.sub_0_r. split.
  - intros (n & _ & ? & ?). eauto.
  - intros (n & ? & ?). exists n. by split; [lia|].
Qed.

Lemma normalize_armature_with st :
  normalize_armature st
  = normalize_with (discovered_bones st)
                   (find_armature (modifiers st) [] 0).2 st.
Proof.
  unfold normalize_armature, discovered_bones.
  by destruct (find_armature (modifiers st) [] 0).
Qed.

(** The operator once the error checks have passed. *)
Lemma normalize_with_checked bones armatures st name :
  bones ≠ [] → vertex_groups st !! active_index st = Some name →
  name ∈ bones →
  normalize_with bones armatures st =
  if decide (mode st = PARTICLE) then Raise TypeError else
    let bone_indexes := get_bone_indexes (vertex_groups st) bones in
    vertices ← normalize_vertices (list_to_set bone_indexes) (active_index st)
                 (map (ensure_groups bone_indexes) (vertices st));
    Ok {| reports := if 1 <? armatures
                     then [(WARNING, multiple_armatures_msg)] else [];
          returned := FINISHED;
          final := with_vertices vertices (assigned_state bone_indexes st) |}.
Proof.
  intros Hb Hn Hin. unfold normalize_with.
  rewrite bool_decide_eq_false_2 by done. rewrite Hn. cbn [mbind result_bind].
  rewrite bool_decide_eq_true_2 by done. cbn [negb].
  rewrite assign_all_groups_spec.
  by destruct (decide (mode st = PARTICLE)).
Qed.

(** After the guarantor every vertex has an element for every bone
    group, so the loop over the vertices returns. *)
Lemma normalize_ensured_Ok (group_indexes : list nat) a vs :
  a ∈ group_indexes →
  ∃ vs', normalize_vertices (list_to_set group_indexes) a
           (map (ensure_groups group_indexes) vs) = Ok vs'.
Proof.
  intros Ha. apply normalize_vertices_Ok. intros v' Hv'.
  apply list_elem_of_fmap in Hv' as (v & -> & _).
  destruct (ensure_groups_spec group_indexes v) as (added & -> & _ & _ & Hall).
  apply normalize_vertex_Ok; [by apply elem_of_list_to_set|].
  specialize (Hall a Ha). apply list_elem_of_fmap in Hall as (e & ? & ?).
  by exists e.
Qed.

(** How a returning call of the operator ended: cancelled with the state
    untouched, or finished after the guarantor and the loop over the
    vertices. *)
Lemma normalize_armature_inv st out :
  normalize_armature st = Ok out →
  (returned out = CANCELLED ∧ final out = st ∧
   ∃ msg, reports out = [(ERROR, msg)]) ∨
  (returned out = FINISHED ∧
   active_index st ∈ bone_index_list st ∧
   normalize_vertices (armature_group_ids st) (active_index st)
     (map (ensure_groups (bone_index_list st)) (vertices st))
   = Ok (vertices (final out)) ∧
   final out = with_vertices (vertices (final out))
                 (assigned_state (bone_index_list st) st)).
Proof.
  rewrite normalize_armature_with. unfold armature_group_ids, bone_index_list.
  generalize (discovered_bones st) as bones.
  generalize ((find_armature (modifiers st) [] 0).2) as armatures.
  intros armatures bones. unfold normalize_with.
  destruct (bool_decide (bones = [])) eqn:Hb.
  { intros [= <-]. left. eauto. }
  apply bool_decide_eq_false in Hb.
  destruct (vertex_groups st !! active_index st) as [name|] eqn:Hn; [|done].
  cbn [mbind result_bind].
  destruct (bool_decide (name ∈ bones)) eqn:Hin; cbn [negb].
  2:{ intros [= <-]. left. eauto. }
  apply bool_decide_eq_true in Hin.
  rewrite assign_all_groups_spec.
  destruct (decide (mode st = PARTICLE)); [done|]. cbn [mbind result_bind].
  change (active_index (assigned_state _ st)) with (active_index st).
  change (vertices (assigned_state ?G st)) with (map (ensure_groups G) (vertices st)).
  destruct (normalize_vertices _ _ _) as [vs'|] eqn:Hvs; [|done].
  cbn [mbind result_bind]. intros [= <-]. right. cbn.
  split; [done|]. split; [|done].
  apply get_bone_indexes_spec. eauto.
Qed.

(** ** Elements at weight 0 do not change the sums *)

Lemma armature_sum_app B l1 l2 :
  (armature_sum B (l1 ++ l2) == armature_sum B l1 + armature_sum B l2)%Q.
Proof.
  induction l1 as [|e l1 IH]; simpl; [ring|].
  destruct (decide _); rewrite IH; ring.
Qed.

Lemma other_sum_app B a l1 l2 :
  (other_sum B a (l1 ++ l2) == other_sum B a l1 + other_sum B a l2)%Q.
Proof.
  induction l1 as [|e l1 IH]; simpl; [ring|].
  destruct (decide _); rewrite IH; ring.
Qed.

Lemma armature_sum_zero_weights B added :
  (∀ e, e ∈ added → weight e = 0%Q) →
  (armature_sum B (map (clamped B) added) == 0)%Q.
Proof.
  induction added as [|e added IH]; intros Hz; [done|].
  rewrite map_cons. destruct (decide (group e ∈ B)).
  - rewrite armature_sum_in, weight_clamped, IH, (Hz e); try done.
    + by left.
    + intros e' He'. apply Hz. by right.
    + by apply collected_clamped.
  - rewrite armature_sum_out, IH; [done|..].
    + intros e' He'. apply Hz. by right.
    + by rewrite collected_clamped.
Qed.

Lemma other_sum_zero_weights B a added :
  (∀ e, e ∈ added → weight e = 0%Q) →
  (other_sum B a (map (clamped B) added) == 0)%Q.
Proof.
  intros Hz. apply other_sum_zero. intros e He _ _. by rewrite (Hz e He).
Qed.

Lemma normalizable_app B a v added :
  (∀ e, e ∈ added → weight e = 0%Q) →
  normalizable B a v → normalizable B a (v ++ added).
Proof.
  intros Hz [H1|[Hpos|(e & He & Hc & Hg & Hw)]].
  - left. rewrite map_app, armature_sum_app.
    rewrite (armature_sum_zero_weights B added Hz), H1. ring.
  - right; left. rewrite map_app, other_sum_app.
    rewrite (other_sum_zero_weights B a added Hz). lra.
  - right; right. exists e. split; [|done]. apply elem_of_app. by left.
Qed.

Lemma NoDup_added group_indexes v added :
  NoDup (map group v) → added_by group_indexes v added →
  NoDup (map group (v ++ added)).
Proof.
  intros Hnd (Hnda & Hz & _). rewrite map_app. apply NoDup_app.
  split; [done|]. split; [|done].
  intros g Hg Hg'. apply list_elem_of_fmap in Hg' as (e & -> & He).
  by destruct (Hz e He) as (_ & _ & Hout).
Qed.

(** The vertex at index [i] through a finished call: the guarantor
    appends [added], the loop normalizes the result. *)
Lemma finished_vertex st out i v :
  normalize_armature st = Ok out → returned out = FINISHED →
  vertices st !! i = Some v →
  active_index st ∈ armature_group_ids st ∧
  ∃ added v',
    added_by (bone_index_list st) v added ∧
    vertices (final out) !! i = Some v' ∧
    normalize_vertex (armature_group_ids st) (active_index st) (v ++ added)
    = Ok v'.
Proof.
  intros Hrun Hfin Hv.
  destruct (normalize_armature_inv _ _ Hrun) as [(Hc & _)|(_ & Ha & Hvs & _)];
    [congruence|].
  split; [by apply elem_of_list_to_set|].
  destruct (ensure_groups_spec (bone_index_list st) v) as (added & Hens & Hadd).
  destruct (normalize_vertices_lookup _ _ _ _ Hvs) as (_ & Hl).
  destruct (Hl i (v ++ added)) as (v' & Hv' & Hn).
  { by rewrite list_lookup_fmap, Hv, <- Hens. }
  by exists added, v'.
Qed.

(** ** A second pass over the vertices *)

Section second_pass.
Context (B : gset nat) (a : nat).












Lemma other_sum_nonneg groups : (0 <= other_sum B a (map (clamped B) groups))%Q.
Proof.
  induction groups as [|e groups IH]; [done|]. rewrite map_cons.
  destruct (decide (group e ∈ B ∧ group e ≠ a)) as [[Hc Hg]|Hn].
  - rewrite other_sum_in, weight_clamped; try done.
    + pose proof (clamp_bounds (weight e)). lra.
    + by apply collected_clamped.
    + by rewrite group_clamped.
  - rewrite other_sum_out; [done|]. by rewrite collected_clamped, group_clamped.
Qed.

Lemma clamp_le_other_sum groups e :
  e ∈ groups → group e ∈ B → group e ≠ a →
  (clamp (weight e) <= other_sum B a (map (clamped B) groups))%Q.
Proof.
  induction groups as [|x groups IH]; intros He Hc Hg.
  - by apply elem_of_nil in He.
  - rewrite map_cons. pose proof (other_sum_nonneg groups) as Hnn.
    apply elem_of_cons in He as [->|He].
    + rewrite other_sum_in, weight_clamped; try done; [lra|..].
      * by apply collected_clamped.
      * by rewrite group_clamped.
    + specialize (IH He Hc Hg).
      destruct (decide (group x ∈ B ∧ group x ≠ a)) as [[Hcx Hgx]|Hn].
      * rewrite other_sum_in, weight_clamped; try done.
        -- pose proof (clamp_bounds (weight x)). lra.
        -- by apply collected_clamped.
        -- by rewrite group_clamped.
      * rewrite other_sum_out; [done|].
        by rewrite collected_clamped, group_clamped.
Qed.


Lemma ratio_bounds (x y : Q) :
  (0 <= x <= y)%Q → (0 < y)%Q → (0 <= x / y <= 1)%Q.
Proof.
  intros [H0 H1] Hy. split.
  - apply Qle_shift_div_l; [done|]. lra.
  - apply Qle_shift_div_r; [done|]. lra.
Qed.

Lemma product_bounds (b r : Q) :
  (0 <= b <= 1)%Q → (0 <= r <= 1)%Q → (0 <= b * r <= 1)%Q.
Proof. intros [Hb0 Hb1] [Hr0 Hr1]. split; nra. Qed.

Lemma rewrite_from_bounds cond f groups k :
  (∀ q e, groups !! q = Some e → group e ∈ B →
          cond (Z.of_nat (k + q)) = true →
          (0 <= f (clamp (weight e)) <= 1)%Q) →
  ∀ e1, e1 ∈ rewrite_from B cond f k groups → group e1 ∈ B →
        (0 <= weight e1 <= 1)%Q.
Proof.
  intros Hf e1 He1 Hc1. apply list_elem_of_lookup in He1 as [q Hq].
  rewrite lookup_rewrite_from in Hq.
  destruct (groups !! q) as [e|] eqn:He; [|done]. injection Hq as <-.
  rewrite group_rewritten in Hc1. rewrite weight_rewritten by done.
  destruct (cond (Z.of_nat (k + q))) eqn:Hcond.
  - by eapply Hf.
  - apply clamp_bounds.
Qed.

(** A vertex whose collected weights are within [0,1] and sum to 1 is
    left as it is. *)
Lemma normalize_vertex_settled groups :
  (∀ e, e ∈ groups → group e ∈ B → (0 <= weight e <= 1)%Q) →
  (armature_sum B groups == 1)%Q →
  normalize_vertex B a groups = Ok groups.
Proof.
  intros Hb Hs.
  assert (Hid : map (clamped B) groups = groups).
  { clear Hs. induction groups as [|e groups IH]; [done|]. simpl.
    rewrite IH by (intros e' He'; apply Hb; by right). f_equal.
    unfold clamped. destruct (decide _) as [Hc|]; [|done].
    rewrite clamp_id by (apply Hb; [by left|done]). apply with_weight_id. }
  rewrite normalize_vertex_eq. unfold normalize_vertex_cases. cbn zeta.
  destruct (gather_spec B a groups) as (_ & _ & _ & Hsum & _).
  rewrite Hid in *. rewrite <- Hsum in Hs. apply Qeq_bool_iff in Hs.
  by rewrite Hs.
Qed.



End second_pass.

(** ** Case D, as the code has it *)

(** In Case D every other collected weight becomes
    [bias * (1 / len(weights))]: the divisor counts the active group's
    element as well. *)
Lemma normalize_vertex_case_D B a groups pa ea :
  NoDup (map group groups) → groups !! pa = Some ea →
  group ea ∈ B → group ea = a →
  (0 < weight ea < 1)%Q →
  (other_sum B a (map (clamped B) groups) == 0)%Q →
  1 < length (collect_from B 0 groups) →
  ∃ groups',
    normalize_vertex B a groups = Ok groups' ∧
    groups' !! pa = Some ea ∧
    ∀ q e, groups !! q = Some e → group e ∈ B → group e ≠ a →
      ∃ e', groups' !! q = Some e' ∧ group e' = group e ∧
            weight e' =
            ((1 - weight ea)
             * (1 / inject_Z (Z.of_nat (length (collect_from B 0 groups)))))%Q.
Proof.
  intros Hnd Hl Hc Hg Hw Hzero Hlen.
  rewrite normalize_vertex_eq. unfold normalize_vertex_cases. cbn zeta.
  rewrite (active_entry_unique _ _ _ _ _ Hnd Hl Hc Hg).
  pose proof (NoDup_only_active_at B a _ _ _ Hnd Hl Hg) as Hu.
  pose proof (armature_sum_split B a pa ea groups 0 Hu (Nat.le_0_l _)) as Hsplit.
  rewrite Nat.sub_0_r in Hsplit. specialize (Hsplit Hl Hc).
  assert (Hid : clamp (weight ea) = weight ea) by (apply clamp_id; lra).
  rewrite Hid in *.
  destruct (gather_spec B a groups) as (_ & Hws & _ & Hs & Hso & _).
  rewrite Hws, length_fmap.
  destruct (gather B a groups) as [gg ag ws ixs s so].
  cbn [g_groups active_group weights indexes sum sum_other] in *.
  replace (Qeq_bool s 1) with false.
  2:{ symmetry. apply not_true_is_false. intros H.
      apply Qeq_bool_iff in H. lra. }
  cbn [negb].
  replace (Qle_bool 1 (weight ea)) with false.
  2:{ symmetry. apply not_true_is_false. intros H.
      apply Qle_bool_iff in H. lra. }
  replace (truthy so) with false.
  2:{ symmetry. apply truthy_false. lra. }
  replace (truthy s) with true.
  2:{ symmetry. apply truthy_true. lra. }
  replace (1 <? length (collect_from B 0 groups)) with true.
  2:{ symmetry. by apply Nat.ltb_lt. }
  cbn [andb]. eexists. split; [done|]. split.
  - rewrite lookup_rewrite_from, Hl. simpl. unfold rewritten.
    rewrite decide_True by done. rewrite Z.eqb_refl. simpl.
    by rewrite Hid, with_weight_id.
  - intros q e Hq Hce Hne. eexists.
    rewrite lookup_rewrite_from, Hq. split; [done|].
    split; [apply group_rewritten|]. rewrite weight_rewritten by done.
    destruct (Z.eqb_spec (Z.of_nat (0 + q)) (Z.of_nat pa)) as [Heq|_]; [|done].
    exfalso. apply Hne, (Hu q e Hq Hce). lia.
Qed.

(** * The claims *)

(** ** Example objects *)

Definition armature (bones : list string) : Modifier :=
  {| mod_type := "ARMATURE"; use_vertex_groups := true;
     mod_object := Some bones |}.

(** A weight-paint session on a mesh with the given modifiers, groups and
    vertices; the first group is the active one. *)
Definition session (modifiers : list Modifier) (vertex_groups : list string)
    (vertices : list (list VertexGroupElement)) : State :=
  {| modifiers := modifiers; vertex_groups := vertex_groups;
     active_index := 0; vertices := vertices; mode := PAINT_WEIGHT;
     vertex_group_weight := 1; selected := ∅ |}.

(** An armature of one bone, and a vertex at weight 1/2 on it. *)
Definition one_bone : State :=
  session [armature ["A"]] ["A"] [[vge 0 (1 # 2)]].

(** An armature of two bones; the vertex of the spec's first scenario. *)
Definition two_bones : State :=
  session [armature ["A"; "B"]] ["A"; "B"] [[vge 0 (3 # 10); vge 1 (5 # 10)]].

Definition outcome_of (r : result outcome) (st : State) : outcome :=
  match r with
  | Ok out => out
  | Raise _ => {| reports := []; returned := CANCELLED; final := st |}
  end.

Definition two_bones_out : outcome :=
  Eval vm_compute in outcome_of (normalize_armature two_bones) two_bones.

(** ** C1 *)

(** C1 (as amended): for every vertex, with one element per group, whose
    clamped weights on the armature's groups already sum to 1, or whose
    groups other than the active one carry positive clamped weight, or
    whose active group is at weight 1 or more, after a finished
    [normalize_armature] the weights on the armature's groups sum to 1
    (exactly, hence within 1e-6). *)
Theorem sum_invariant st out i v :
  normalize_armature st = Ok out → returned out = FINISHED →
  vertices st !! i = Some v → NoDup (map group v) →
  normalizable (armature_group_ids st) (active_index st) v →
  ∃ v', vertices (final out) !! i = Some v' ∧
        (armature_sum (armature_group_ids st) v' == 1)%Q ∧
        (Qabs (armature_sum (armature_group_ids st) v' - 1) <= 1 # 1000000)%Q.
Proof.
  intros Hrun Hfin Hv Hnd Hn.
  destruct (finished_vertex _ _ _ _ Hrun Hfin Hv)
    as (_ & added & v' & Hadd & Hv' & Hnv).
  exists v'. split; [done|].
  assert (Hsum : (armature_sum (armature_group_ids st) v' == 1)%Q).
  { eapply normalize_vertex_sum; [|done|].
    - by eapply NoDup_added.
    - apply normalizable_app; [|done].
      intros e He. by destruct Hadd as (_ & Hz & _); destruct (Hz e He). }
  split; [done|]. rewrite Hsum. by vm_compute.
Qed.

Lemma sum_invariant_witness :
  ∃ v', vertices (final two_bones_out) !! 0 = Some v' ∧
        (armature_sum (armature_group_ids two_bones) v' == 1)%Q ∧
        (Qabs (armature_sum (armature_group_ids two_bones) v' - 1)
         <= 1 # 1000000)%Q.
Proof.
  apply (sum_invariant two_bones two_bones_out 0
           [vge 0 (3 # 10); vge 1 (5 # 10)]).
  - by vm_compute.
  - reflexivity.
  - reflexivity.
  - apply (bool_decide_unpack _). by vm_compute.
  - right; left. by vm_compute.
Defined.

(** C1 fails as stated: on an armature of one bone, a vertex at weight
    1/2 on that bone has a nonzero weight, on the active group, and
    the operator finishes with its sum still 1/2. *)
Lemma sum_invariant_counterexample :
  ∃ out v',
    normalize_armature one_bone = Ok out ∧ returned out = FINISHED ∧
    vertices one_bone !! 0 = Some [vge 0 (1 # 2)] ∧
    0 ∈ armature_group_ids one_bone ∧ active_index one_bone = 0 ∧
    vertices (final out) !! 0 = Some v' ∧
    (armature_sum (armature_group_ids one_bone) v' == 1 # 2)%Q ∧
    ¬ (Qabs (armature_sum (armature_group_ids one_bone) v' - 1)
       <= 1 # 1000000)%Q.
Proof.
  eexists _, _. split; [by vm_compute|].
  repeat split; by vm_compute.
Qed.

(** ** C5 *)

(** C5: in Case C, where a vertex (with one element per group) has its
    active-group weight [a] strictly between 0 and 1 and the collected
    weights of its other armature groups sum to a positive [sum_other], a
    finished [normalize_armature] leaves the active group's element as
    it was, and every other collected weight [w] becomes
    [(1 - a) * (w / sum_other)]; the collected weights and [sum_other]
    are the clamped values the gathering loop reads. *)
Theorem case_C_rescale st out i v pa ea :
  normalize_armature st = Ok out → returned out = FINISHED →
  vertices st !! i = Some v → NoDup (map group v) →
  v !! pa = Some ea → group ea = active_index st →
  (0 < weight ea < 1)%Q →
  (0 < other_sum (armature_group_ids st) (active_index st)
         (map (clamped (armature_group_ids st)) v))%Q →
  ∃ v', vertices (final out) !! i = Some v' ∧
        v' !! pa = Some ea ∧
        ∀ q e, v !! q = Some e → group e ∈ armature_group_ids st →
               group e ≠ active_index st →
          ∃ e', v' !! q = Some e' ∧ group e' = group e ∧
                (weight e' ==
                 (1 - weight ea)
                 * (clamp (weight e)
                    / other_sum (armature_group_ids st) (active_index st)
                        (map (clamped (armature_group_ids st)) v)))%Q.
Proof.
  intros Hrun Hfin Hv Hnd Hpa Hg Hw Hpos.
  destruct (finished_vertex _ _ _ _ Hrun Hfin Hv)
    as (Ha & added & v' & Hadd & Hv' & Hnv).
  assert (Hz : ∀ e, e ∈ added → weight e = 0%Q).
  { intros e He. by destruct Hadd as (_ & Hz & _); destruct (Hz e He). }
  assert (Hso : (other_sum (armature_group_ids st) (active_index st)
                   (map (clamped (armature_group_ids st)) (v ++ added))
                 == other_sum (armature_group_ids st) (active_index st)
                      (map (clamped (armature_group_ids st)) v))%Q).
  { rewrite map_app, other_sum_app.
    rewrite (other_sum_zero_weights _ _ added Hz). ring. }
  destruct (normalize_vertex_case_C (armature_group_ids st) (active_index st)
              (v ++ added) pa ea) as (v'' & Hnv' & Hact & Hoth).
  - by eapply NoDup_added.
  - by apply lookup_app_l_Some.
  - by rewrite Hg.
  - done.
  - done.
  - by rewrite Hso.
  - rewrite Hnv in Hnv'. injection Hnv' as <-.
    exists v'. split; [done|]. split; [done|].
    intros q e Hq Hc Hne.
    destruct (Hoth q e (lookup_app_l_Some _ _ _ _ Hq) Hc Hne)
      as (e' & He' & Hge & Hwe).
    exists e'. split; [done|]. split; [done|]. by rewrite Hwe, Hso.
Qed.

Lemma case_C_rescale_witness :
  ∃ v', vertices (final two_bones_out) !! 0 = Some v' ∧
        v' !! 0 = Some (vge 0 (3 # 10)) ∧
        ∀ q e, [vge 0 (3 # 10); vge 1 (5 # 10)] !! q = Some e →
               group e ∈ armature_group_ids two_bones →
               group e ≠ active_index two_bones →
          ∃ e', v' !! q = Some e' ∧ group e' = group e ∧
                (weight e' ==
                 (1 - weight (vge 0 (3 # 10)))
                 * (clamp (weight e)
                    / other_sum (armature_group_ids two_bones)
                        (active_index two_bones)
                        (map (clamped (armature_group_ids two_bones))
                           [vge 0 (3 # 10); vge 1 (5 # 10)])))%Q.
Proof.
  apply (case_C_rescale two_bones two_bones_out 0
           [vge 0 (3 # 10); vge 1 (5 # 10)] 0 (vge 0 (3 # 10))).
  - by vm_compute.
  - reflexivity.
  - reflexivity.
  - apply (bool_decide_unpack _). by vm_compute.
  - reflexivity.
  - reflexivity.
  - by vm_compute.
  - by vm_compute.
Defined.

(** ** C8 *)

(** C8: through [normalize_armature], every element of a vertex whose
    group is outside the armature's groups stays where it is with its
    weight, and no such element appears. *)
Theorem non_armature_groups_untouched st out i v :
  normalize_armature st = Ok out →
  vertices st !! i = Some v →
  ∃ v', vertices (final out) !! i = Some v' ∧
        ∀ k e, group e ∉ armature_group_ids st →
               (v !! k = Some e ↔ v' !! k = Some e).
Proof.
  intros Hrun Hv.
  destruct (normalize_armature_inv _ _ Hrun) as [(_ & -> & _)|(Hfin & _)].
  { by exists v. }
  destruct (finished_vertex _ _ _ _ Hrun Hfin Hv)
    as (_ & added & v' & Hadd & Hv' & Hnv).
  exists v'. split; [done|]. intros k e Hout.
  destruct (normalize_vertex_frame _ _ _ _ Hnv) as (Hlen & Hfr).
  split.
  - intros Hk. destruct (Hfr k e (lookup_app_l_Some _ _ _ _ Hk))
      as (e' & He' & _ & Hsame).
    by rewrite He', (Hsame Hout).
  - intros Hk.
    assert (Hlt : k < length (v ++ added)).
    { rewrite <- Hlen. by eapply lookup_lt_Some. }
    destruct (lookup_lt_is_Some_2 _ _ Hlt) as [e0 He0].
    destruct (Hfr k e0 He0) as (e' & He' & Hg & Hsame).
    rewrite Hk in He'. injection He' as <-.
    rewrite Hg in Hout. rewrite (Hsame Hout) in *.
    apply lookup_app_Some in He0 as [He0|[_ He0]]; [done|].
    exfalso. apply Hout. destruct Hadd as (_ & Hz & _).
    destruct (Hz e0) as (_ & Hin & _); [by eapply list_elem_of_lookup_2|].
    by apply elem_of_list_to_set.
Qed.

(** A mesh with a group outside the armature. *)
Definition with_extra_group : State :=
  session [armature ["A"; "B"]] ["A"; "B"; "Extra"]
    [[vge 0 (3 # 10); vge 2 (9 # 10); vge 1 (5 # 10)]].

Definition with_extra_group_out : outcome :=
  Eval vm_compute in
    outcome_of (normalize_armature with_extra_group) with_extra_group.

Lemma non_armature_groups_untouched_witness :
  ∃ v', vertices (final with_extra_group_out) !! 0 = Some v' ∧
        ∀ k e, group e ∉ armature_group_ids with_extra_group →
               ([vge 0 (3 # 10); vge 2 (9 # 10); vge 1 (5 # 10)] !! k = Some e
                ↔ v' !! k = Some e).
Proof.
  apply (non_armature_groups_untouched with_extra_group with_extra_group_out 0).
  - by vm_compute.
  - reflexivity.
Defined.

(** ** C10 *)

(** C10: when the active group is one of the armature's groups and every
    vertex has an element for every armature group, no vertex makes
    [indexes.index(active_group)] or the access to [weights] fail:
    [active_group] is not -1, [weights] and [indexes] are not empty, and
    the loop over the vertices returns.  Without that precondition, a
    vertex with no element for the active group and no weight on its
    other collected elements makes the lookup raise [ValueError]. *)
Theorem active_lookup_never_fails (bone_indexes : gset nat) (active_index : nat) :
  active_index ∈ bone_indexes →
  (∀ vertices,
     (∀ v, v ∈ vertices → ∀ g, g ∈ bone_indexes → g ∈ map group v) →
     (∃ vertices',
        normalize_vertices bone_indexes active_index vertices = Ok vertices') ∧
     ∀ v, v ∈ vertices →
       let st := gather bone_indexes active_index v in
       active_group st ≠ (-1)%Z ∧ weights st ≠ [] ∧ indexes st ≠ [] ∧
       ∃ p, list_index (indexes st) (active_group st) = Ok p ∧
            is_Some (weights st !! p)) ∧
  (∀ v rest,
     (∀ e, e ∈ v → group e ≠ active_index) →
     (∀ e, e ∈ v → group e ∈ bone_indexes → (clamp (weight e) == 0)%Q) →
     list_index (indexes (gather bone_indexes active_index v))
                (active_group (gather bone_indexes active_index v))
     = Raise ValueError ∧
     normalize_vertex bone_indexes active_index v = Raise ValueError ∧
     normalize_vertices bone_indexes active_index (v :: rest)
     = Raise ValueError).
Proof.
  intros Ha. split.
  - intros vs Hcov.
    assert (Hv : ∀ v, v ∈ vs → ∃ e, e ∈ v ∧ group e = active_index).
    { intros v Hin. specialize (Hcov v Hin _ Ha).
      apply list_elem_of_fmap in Hcov as (e & ? & ?). by exists e. }
    split.
    + apply normalize_vertices_Ok. intros v Hin.
      by apply normalize_vertex_Ok; [|apply Hv].
    + intros v Hin. by apply normalize_vertex_Ok; [|apply Hv].
  - intros v rest Hno Hz.
    destruct (normalize_vertex_raises bone_indexes active_index v Hno Hz)
      as (_ & Hidx & Hraise).
    split; [done|]. split; [done|]. simpl. by rewrite Hraise.
Qed.

Lemma active_lookup_never_fails_witness :
  (∃ vertices',
     normalize_vertices {[0; 1]} 0 [[vge 1 (2 # 5); vge 0 0]] = Ok vertices') ∧
  normalize_vertices {[0; 1]} 0 [[vge 1 0]] = Raise ValueError.
Proof.
  destruct (active_lookup_never_fails {[0; 1]} 0) as [Hok Hraise].
  - by vm_compute.
  - split.
    + apply (Hok [[vge 1 (2 # 5); vge 0 0]]).
      intros v Hv g Hg. apply (bool_decide_unpack _).
      apply list_elem_of_singleton in Hv as ->.
      apply elem_of_union in Hg as [Hg|Hg];
        apply elem_of_singleton in Hg as ->; by vm_compute.
    + apply (Hraise [vge 1 0] []).
      * intros e He. apply list_elem_of_singleton in He as ->. by vm_compute.
      * intros e He _. apply list_elem_of_singleton in He as ->. by vm_compute.
Defined.

(** ** C7 *)

(** C7: [assign_all_groups] returns from every mode but [PARTICLE], and
    when it returns every vertex has its former elements, unchanged and in
    place, followed by one new element at weight 0 for each group of
    [group_indexes] it had no element for, and by nothing else; so every
    vertex has an element for every group of [group_indexes]. *)
Theorem membership_complete group_indexes st :
  (mode st ≠ PARTICLE → ∃ st', assign_all_groups group_indexes st = Ok st') ∧
  ∀ st', assign_all_groups group_indexes st = Ok st' →
    length (vertices st') = length (vertices st) ∧
    ∀ i v, vertices st !! i = Some v →
      ∃ added,
        vertices st' !! i = Some (v ++ added) ∧
        (∀ g, g ∈ group_indexes → g ∈ map group (v ++ added)) ∧
        NoDup (map group added) ∧
        (∀ e, e ∈ added →
              weight e = 0%Q ∧ group e ∈ group_indexes ∧
              group e ∉ map group v) ∧
        (∀ g, g ∈ group_indexes → g ∉ map group v → g ∈ map group added).
Proof.
  rewrite assign_all_groups_spec. split.
  { intros Hm. rewrite decide_False by done. eauto. }
  intros st'. destruct (decide (mode st = PARTICLE)); [done|].
  intros [= <-]. cbn [assigned_state vertices with_vertices].
  split; [by rewrite length_map|]. intros i v Hv.
  destruct (ensure_groups_spec group_indexes v)
    as (added & Hens & Hnd & Hz & Hall).
  exists added. rewrite list_lookup_fmap, Hv. simpl. rewrite Hens.
  repeat split; try done; try (by apply Hz).
  intros g Hg Hout. specialize (Hall g Hg).
  rewrite map_app in Hall. by apply elem_of_app in Hall as [?|?].
Qed.

(** A mesh of three groups whose vertices miss some of them. *)
Definition sparse_mesh : State :=
  {| modifiers := []; vertex_groups := ["A"; "B"; "C"]; active_index := 1;
     vertices := [[vge 0 (1 # 2); vge 1 (1 # 4)]; [vge 1 (2 # 5)]; []];
     mode := PAINT_WEIGHT; vertex_group_weight := 1; selected := {[0]} |}.

Definition sparse_mesh_assigned : State :=
  Eval vm_compute in
    match assign_all_groups [2; 0] sparse_mesh with
    | Ok st => st
    | Raise _ => sparse_mesh
    end.

Lemma membership_complete_witness :
  length (vertices sparse_mesh_assigned) = length (vertices sparse_mesh) ∧
  ∀ i v, vertices sparse_mesh !! i = Some v →
    ∃ added,
      vertices sparse_mesh_assigned !! i = Some (v ++ added) ∧
      (∀ g, g ∈ [2; 0] → g ∈ map group (v ++ added)) ∧
      NoDup (map group added) ∧
      (∀ e, e ∈ added →
            weight e = 0%Q ∧ group e ∈ [2; 0] ∧ group e ∉ map group v) ∧
      (∀ g, g ∈ [2; 0] → g ∉ map group v → g ∈ map group added).
Proof.
  apply (membership_complete [2; 0] sparse_mesh). by vm_compute.
Defined.

(** ** C9 *)

(** C9 (as amended): when [assign_all_groups] returns, which it does from
    every mode but [PARTICLE], the active group index, the interaction
    mode and the group-weight default are what they were before the
    call, and so are the modifiers and the group table; the vertex
    selection is not put back: after a call with a non-empty
    [group_indexes] the selected vertices are those that had no element
    for its last group, and after a call with an empty one the selection
    is unchanged. *)
Theorem editing_state_restored group_indexes st st' :
  assign_all_groups group_indexes st = Ok st' →
  active_index st' = active_index st ∧
  mode st' = mode st ∧
  vertex_group_weight st' = vertex_group_weight st ∧
  modifiers st' = modifiers st ∧
  vertex_groups st' = vertex_groups st ∧
  selected st' =
    match last group_indexes with
    | Some g => list_to_set (missing_from 0 g (vertices st))
    | None => selected st
    end.
Proof.
  rewrite assign_all_groups_spec.
  destruct (decide (mode st = PARTICLE)); [done|]. by intros [= <-].
Qed.

Lemma editing_state_restored_witness :
  active_index sparse_mesh_assigned = active_index sparse_mesh ∧
  mode sparse_mesh_assigned = mode sparse_mesh ∧
  vertex_group_weight sparse_mesh_assigned = vertex_group_weight sparse_mesh ∧
  modifiers sparse_mesh_assigned = modifiers sparse_mesh ∧
  vertex_groups sparse_mesh_assigned = vertex_groups sparse_mesh ∧
  selected sparse_mesh_assigned =
    match last [2; 0] with
    | Some g => list_to_set (missing_from 0 g (vertices sparse_mesh))
    | None => selected sparse_mesh
    end.
Proof.
  apply (editing_state_restored [2; 0] sparse_mesh sparse_mesh_assigned).
  by vm_compute.
Defined.

(** C9 fails as stated: the call returns with vertices 1 and 2 selected
    where vertex 0 was. *)
Lemma editing_state_restored_counterexample :
  ∃ st', assign_all_groups [2; 0] sparse_mesh = Ok st' ∧
         elements (selected sparse_mesh) = [0] ∧
         elements (selected st') = [2; 1] ∧
         selected st' ≠ selected sparse_mesh.
Proof.
  eexists. split; [by vm_compute|].
  split; [by vm_compute|]. split; [by vm_compute|].
  intros H. apply (f_equal elements) in H. by vm_compute in H.
Qed.

(** ** C3 *)

Lemma find_armature_filter modifiers : ∀ bones armatures,
  find_armature modifiers bones armatures
  = find_armature (List.filter qualifies modifiers) bones armatures.
Proof.
  induction modifiers as [|m ms IH]; intros bones armatures; [done|].
  simpl. destruct (qualifies m) eqn:Hq; [|apply IH].
  simpl. rewrite Hq. destruct (armatures + 1 =? 2); [done|apply IH].
Qed.

Lemma filter_qualifies_head modifiers m rest :
  List.filter qualifies modifiers = m :: rest → qualifies m = true.
Proof.
  intros H. assert (Hin : In m (List.filter qualifies modifiers))
    by (rewrite H; by left).
  by apply filter_In in Hin as [_ ?].
Qed.

(** With two or more qualifying modifiers the loop stops at the second
    one, with its bones. *)
Lemma find_armature_second modifiers m1 m2 rest :
  List.filter qualifies modifiers = m1 :: m2 :: rest →
  find_armature modifiers [] 0 = (default [] (mod_object m2), 2).
Proof.
  intros H. rewrite find_armature_filter, H.
  assert (H1 : qualifies m1 = true) by (by eapply filter_qualifies_head).
  assert (H2 : qualifies m2 = true).
  { assert (Hin : In m2 (List.filter qualifies modifiers))
      by (rewrite H; right; by left).
    by apply filter_In in Hin as [_ ?]. }
  simpl. by rewrite H1, H2.
Qed.

(** C3 (as amended): when more than one modifier qualifies, the bones
    are those of the second qualifying modifier; if that list is not
    empty and has the active group's name, the operator (called outside
    [PARTICLE] mode) reports the warning, returns [FINISHED] and has
    normalized the vertices over the groups named after those bones. *)
Theorem multiple_armatures_use_second st m1 m2 rest name :
  List.filter qualifies (modifiers st) = m1 :: m2 :: rest →
  default [] (mod_object m2) ≠ [] →
  vertex_groups st !! active_index st = Some name →
  name ∈ default [] (mod_object m2) →
  mode st ≠ PARTICLE →
  let bone_indexes :=
    get_bone_indexes (vertex_groups st) (default [] (mod_object m2)) in
  discovered_bones st = default [] (mod_object m2) ∧
  ∃ vertices',
    normalize_vertices (list_to_set bone_indexes) (active_index st)
      (map (ensure_groups bone_indexes) (vertices st)) = Ok vertices' ∧
    normalize_armature st =
    Ok {| reports := [(WARNING, multiple_armatures_msg)];
          returned := FINISHED;
          final := with_vertices vertices' (assigned_state bone_indexes st) |}.
Proof.
  intros Hf Hb Hn Hin Hm bone_indexes.
  pose proof (find_armature_second _ _ _ _ Hf) as Hfind.
  unfold discovered_bones. rewrite Hfind. split; [done|].
  destruct (normalize_ensured_Ok bone_indexes (active_index st) (vertices st))
    as [vs' Hvs].
  { apply get_bone_indexes_spec. eauto. }
  exists vs'. split; [done|].
  unfold normalize_armature. rewrite Hfind.
  rewrite (normalize_with_checked _ _ _ name) by done.
  rewrite decide_False by done. cbn zeta. fold bone_indexes.
  by rewrite Hvs.
Qed.

(** Two armatures that share bone A; the vertex has weight on B and C. *)
Definition two_armatures : State :=
  session [armature ["A"; "B"]; armature ["A"; "C"]] ["A"; "B"; "C"]
    [[vge 0 (1 # 2); vge 1 (1 # 4); vge 2 (1 # 8)]].

Lemma multiple_armatures_use_second_witness :
  let bone_indexes := get_bone_indexes (vertex_groups two_armatures) ["A"; "C"] in
  discovered_bones two_armatures = ["A"; "C"] ∧
  ∃ vertices',
    normalize_vertices (list_to_set bone_indexes) 0
      (map (ensure_groups bone_indexes) (vertices two_armatures))
    = Ok vertices' ∧
    normalize_armature two_armatures =
    Ok {| reports := [(WARNING, multiple_armatures_msg)];
          returned := FINISHED;
          final := with_vertices vertices'
                     (assigned_state bone_indexes two_armatures) |}.
Proof.
  apply (multiple_armatures_use_second two_armatures
           (armature ["A"; "B"]) (armature ["A"; "C"]) [] "A").
  - reflexivity.
  - by vm_compute.
  - reflexivity.
  - apply (bool_decide_unpack _). by vm_compute.
  - by vm_compute.
Defined.

(** C3 fails as stated: both modifiers qualify, and the operator
    rescales group C, of the second armature, and leaves group B, of the
    first, alone; over the first armature's bones it would have done the
    opposite. *)
Lemma multiple_armatures_counterexample :
  List.filter qualifies (modifiers two_armatures)
  = [armature ["A"; "B"]; armature ["A"; "C"]] ∧
  ∃ out out1 w w1,
    normalize_armature two_armatures = Ok out ∧
    normalize_with ["A"; "B"] 2 two_armatures = Ok out1 ∧
    returned out = FINISHED ∧
    vertices (final out) = [[vge 0 (1 # 2); vge 1 (1 # 4); vge 2 w]] ∧
    vertices (final out1) = [[vge 0 (1 # 2); vge 1 w1; vge 2 (1 # 8)]] ∧
    (w == 1 # 2)%Q ∧ (w1 == 1 # 2)%Q ∧
    vertices (final out) ≠ vertices (final out1).
Proof.
  split; [reflexivity|]. eexists _, _, _, _.
  split; [by vm_compute|]. split; [by vm_compute|].
  repeat split; by vm_compute.
Qed.

(** ** C6 *)

Lemma find_armature_none modifiers bones armatures :
  (∀ m, m ∈ modifiers → qualifies m = false) →
  find_armature modifiers bones armatures = (bones, armatures).
Proof.
  induction modifiers as [|m ms IH]; intros Hq; [done|]. simpl.
  rewrite (Hq m) by (by left). apply IH. intros m' Hm'. apply Hq. by right.
Qed.

(** The error conditions, as the operator tests them. *)
Definition fatal (st : State) : Prop :=
  (∀ m, m ∈ modifiers st → qualifies m = false) ∨
  discovered_bones st = [] ∨
  ∃ name, vertex_groups st !! active_index st = Some name ∧
          name ∉ discovered_bones st.

(** C6 (as amended): when no modifier qualifies, or the bones found are
    none, the operator reports that no armature was found; otherwise,
    when the active group's name is not among the bones, it reports that
    the group is not on the armature.  Either way it returns
    [CANCELLED] with the state as it was. *)
Theorem fatal_errors_leave_state st :
  fatal st →
  normalize_armature st =
  Ok {| reports := [(ERROR, if decide (discovered_bones st = [])
                            then no_armature_msg else not_on_armature_msg)];
        returned := CANCELLED;
        final := st |}.
Proof.
  intros Hfatal. rewrite normalize_armature_with.
  assert (Hnone : (∀ m, m ∈ modifiers st → qualifies m = false) →
                  discovered_bones st = []).
  { intros Hq. unfold discovered_bones. by rewrite find_armature_none. }
  unfold normalize_with.
  destruct (decide (discovered_bones st = [])) as [Hb|Hb].
  { by rewrite bool_decide_eq_true_2. }
  rewrite bool_decide_eq_false_2 by done.
  destruct Hfatal as [Hq|[Hq|(name & Hn & Hout)]]; [by apply Hnone in Hq|done|].
  rewrite Hn. cbn [mbind result_bind].
  by rewrite bool_decide_eq_false_2.
Qed.

(** An armature whose skeleton has no bones. *)
Definition empty_skeleton : State :=
  session [armature []] ["A"] [[vge 0 (1 # 2)]].

(** An armature that lacks the active group's bone. *)
Definition other_skeleton : State :=
  session [armature ["B"]] ["A"; "B"] [[vge 0 (1 # 2)]].

Lemma fatal_errors_leave_state_witness :
  normalize_armature other_skeleton =
  Ok {| reports := [(ERROR, if decide (discovered_bones other_skeleton = [])
                            then no_armature_msg else not_on_armature_msg)];
        returned := CANCELLED;
        final := other_skeleton |}.
Proof.
  apply (fatal_errors_leave_state other_skeleton).
  right; right. exists "A"%string. split; [reflexivity|].
  apply (bool_decide_unpack _). by vm_compute.
Defined.

(** C6 fails as stated: here a modifier qualifies, the active group's
    name is not a bone of its skeleton, and the error reported is the one
    for a missing armature. *)
Lemma fatal_errors_counterexample :
  (∃ m, m ∈ modifiers empty_skeleton ∧ qualifies m = true) ∧
  vertex_groups empty_skeleton !! active_index empty_skeleton = Some "A"%string ∧
  ("A"%string ∉ discovered_bones empty_skeleton) ∧
  normalize_armature empty_skeleton =
  Ok {| reports := [(ERROR, no_armature_msg)]; returned := CANCELLED;
        final := empty_skeleton |} ∧
  no_armature_msg ≠ not_on_armature_msg.
Proof.
  split; [exists (armature []); split; [by left|reflexivity]|].
  split; [reflexivity|]. split; [by intros ?%elem_of_nil|].
  split; [reflexivity|done].
Qed.

(** ** C2 and C4 *)

(** Case D: the active group at 1/2, the only other bone group at 0. *)
Definition case_D_mesh : State :=
  session [armature ["A"; "B"]] ["A"; "B"] [[vge 0 (1 # 2); vge 1 0]].

(** C2: in Case D the operator gives the other group [bias / count], here
    1/4, where the claim has [bias / (count - 1)], here 1/2. *)
Theorem case_D_divides_by_count :
  ∃ out w,
    normalize_armature case_D_mesh = Ok out ∧ returned out = FINISHED ∧
    vertices (final out) = [[vge 0 (1 # 2); vge 1 w]] ∧
    (w == (1 - (1 # 2)) / 2)%Q ∧
    ¬ (w == (1 - (1 # 2)) / (2 - 1))%Q.
Proof.
  eexists _, _. split; [by vm_compute|]. repeat split; by vm_compute.
Qed.

(** C4: on the Case D vertex a second call changes what the first call
    left: the other group goes from 1/4 to 1/2. *)
Theorem second_call_changes_case_D :
  ∃ out1 out2 w1 w2,
    normalize_armature case_D_mesh = Ok out1 ∧ returned out1 = FINISHED ∧
    normalize_armature (final out1) = Ok out2 ∧ returned out2 = FINISHED ∧
    vertices (final out1) = [[vge 0 (1 # 2); vge 1 w1]] ∧
    vertices (final out2) = [[vge 0 (1 # 2); vge 1 w2]] ∧
    (w1 == 1 # 4)%Q ∧ (w2 == 1 # 2)%Q ∧ ¬ (w1 == w2)%Q.
Proof.
  eexists _, _, _, _. split; [by vm_compute|]. split; [reflexivity|].
  split; [by vm_compute|]. repeat split; by vm_compute.
Qed.

(** * Further properties of the per-vertex algorithm *)

Section vertex_results.
Context (B : gset nat) (a : nat).

Lemma count_ratio_bounds (n : nat) :
  1 < n → (0 <= 1 / inject_Z (Z.of_nat n) <= 1)%Q.
Proof.
  intros Hn. apply ratio_bounds.
  - split; [lra|]. change 1%Q with (inject_Z 1). rewrite <- Zle_Qle. lia.
  - change 0%Q with (inject_Z 0). rewrite <- Zlt_Qlt. lia.
Qed.

(** Whatever branch is taken, the collected weights end within [0,1]. *)
Lemma normalize_vertex_bounds groups groups1 :
  NoDup (map group groups) →
  normalize_vertex B a groups = Ok groups1 →
  ∀ e1, e1 ∈ groups1 → group e1 ∈ B → (0 <= weight e1 <= 1)%Q.
Proof.
  intros Hnd Hrun.
  rewrite normalize_vertex_eq in Hrun. unfold normalize_vertex_cases in Hrun.
  cbn zeta in Hrun.
  destruct (gather_spec B a groups) as (_ & Hws & _ & Hs & Hso & _).
  pose proof (other_sum_nonneg B a groups) as Hnn.
  assert (Hcl : ∀ e1, e1 ∈ map (clamped B) groups → group e1 ∈ B →
                      (0 <= weight e1 <= 1)%Q).
  { intros e1 He1 Hc1. apply list_elem_of_fmap in He1 as (e & -> & _).
    rewrite group_clamped in Hc1. rewrite weight_clamped by done.
    apply clamp_bounds. }
  destruct (negb _); [|by injection Hrun as <-].
  destruct (active_entry B a groups) as [[pa ea]|] eqn:Ha.
  - destruct (active_entry_from_Some _ _ _ _ _ _ Ha) as (_ & Hl & Hc & Hg).
    rewrite Nat.sub_0_r in Hl.
    pose proof (NoDup_only_active_at B a _ _ _ Hnd Hl Hg) as Hu.
    destruct (Qle_bool 1 _) eqn:Hle.
    + injection Hrun as <-. intros e1 He1 Hc1.
      apply list_elem_of_lookup in He1 as [q Hq].
      destruct (decide (q = pa)) as [->|Hqp].
      * rewrite list_lookup_alter_eq in Hq.
        destruct (rewrite_from _ _ _ _ _ !! pa); [|done].
        injection Hq as <-. simpl. lra.
      * rewrite list_lookup_alter_ne in Hq by done.
        eapply (rewrite_from_bounds B (λ _, true) (λ _, 0%Q) groups 0);
          [| by eapply list_elem_of_lookup_2 | done].
        intros. lra.
    + assert (Hlt : (clamp (weight ea) < 1)%Q).
      { apply Qnot_le_lt. intros H. apply Qle_bool_iff in H. congruence. }
      pose proof (clamp_bounds (weight ea)) as Hba.
      destruct (truthy (sum_other _)) eqn:Ht.
      * apply truthy_true in Ht. rewrite Hso in Ht.
        assert (Hpos : (0 < other_sum B a (map (clamped B) groups))%Q) by lra.
        injection Hrun as <-.
        apply rewrite_from_bounds. intros q e He Hce Hcond.
        apply negb_true_iff in Hcond.
        destruct (Z.eqb_spec (Z.of_nat (0 + q)) (Z.of_nat pa)) as [|Hqp];
          [done|].
        apply product_bounds; [lra|].
        rewrite Hso. apply ratio_bounds; [|done]. split.
        -- apply clamp_bounds.
        -- apply clamp_le_other_sum; [by eapply list_elem_of_lookup_2|done|].
           intros Hge. apply (Hu q e He Hce) in Hge. lia.
      * destruct (truthy (sum _) && _) eqn:Hd; [|by injection Hrun as <-].
        apply andb_true_iff in Hd as [_ Hd2]. apply Nat.ltb_lt in Hd2.
        injection Hrun as <-.
        apply rewrite_from_bounds. intros q e He Hce _.
        apply product_bounds; [lra|]. by apply count_ratio_bounds.
  - pose proof (active_entry_from_None _ _ _ _ Ha) as Hno.
    destruct (truthy (sum_other _)) eqn:Ht; [|done].
    apply truthy_true in Ht. rewrite Hso in Ht.
    assert (Hpos : (0 < other_sum B a (map (clamped B) groups))%Q) by lra.
    injection Hrun as <-.
    apply rewrite_from_bounds. intros q e He Hce _.
    rewrite Hso. apply ratio_bounds; [|done]. split.
    + apply clamp_bounds.
    + apply clamp_le_other_sum; [by eapply list_elem_of_lookup_2|done|].
      intros Hge. eapply Hno; [by eapply list_elem_of_lookup_2|done].
Qed.

(** The active group's element keeps its clamped weight in every
    branch. *)
Lemma normalize_vertex_active_held groups groups1 pa ea :
  NoDup (map group groups) →
  normalize_vertex B a groups = Ok groups1 →
  groups !! pa = Some ea → group ea ∈ B → group ea = a →
  ∃ e1, groups1 !! pa = Some e1 ∧ group e1 = a ∧
        (weight e1 == clamp (weight ea))%Q.
Proof.
  intros Hnd Hrun Hl Hc Hg.
  rewrite normalize_vertex_eq in Hrun. unfold normalize_vertex_cases in Hrun.
  cbn zeta in Hrun.
  rewrite (active_entry_unique _ _ _ _ _ Hnd Hl Hc Hg) in Hrun.
  assert (Hcl : ∃ e1, map (clamped B) groups !! pa = Some e1 ∧ group e1 = a ∧
                      (weight e1 == clamp (weight ea))%Q).
  { exists (clamped B ea). rewrite list_lookup_fmap, Hl.
    split; [done|]. split; [by rewrite group_clamped|].
    by rewrite weight_clamped. }
  assert (Hrw : ∀ f, ∃ e1,
             rewrite_from B (λ i, negb (i =? Z.of_nat pa)%Z) f 0 groups !! pa
             = Some e1 ∧ group e1 = a ∧ (weight e1 == clamp (weight ea))%Q).
  { intros f. eexists. rewrite lookup_rewrite_from, Hl. split; [done|].
    split; [by rewrite group_rewritten|].
    rewrite weight_rewritten by done. simpl. by rewrite Z.eqb_refl. }
  destruct (negb _); [|by injection Hrun as <-].
  destruct (Qle_bool 1 _) eqn:Hle.
  - apply Qle_bool_iff in Hle. injection Hrun as <-.
    eexists. rewrite list_lookup_alter_eq, lookup_rewrite_from, Hl.
    split; [done|]. split; [by simpl; rewrite group_rewritten|]. simpl.
    pose proof (clamp_bounds (weight ea)). lra.
  - destruct (truthy (sum_other _)); [injection Hrun as <-; apply Hrw|].
    destruct (truthy _ && _); injection Hrun as <-; [apply Hrw|apply Hcl].
Qed.

(** Case B: the active group at 1 or more takes everything. *)
Lemma normalize_vertex_case_B groups groups1 pa ea :
  NoDup (map group groups) →
  normalize_vertex B a groups = Ok groups1 →
  groups !! pa = Some ea → group ea ∈ B → group ea = a →
  (1 <= weight ea)%Q →
  ∀ q e, groups !! q = Some e → group e ∈ B →
    ∃ e1, groups1 !! q = Some e1 ∧ group e1 = group e ∧
          (weight e1 == if decide (q = pa) then 1 else 0)%Q.
Proof.
  intros Hnd Hrun Hl Hc Hg Hw q e Hq Hce.
  pose proof (NoDup_only_active_at B a _ _ _ Hnd Hl Hg) as Hu.
  pose proof (armature_sum_split B a pa ea groups 0 Hu (Nat.le_0_l _)) as Hsplit.
  rewrite Nat.sub_0_r in Hsplit. specialize (Hsplit Hl Hc).
  pose proof (clamp_ge_1 _ Hw) as Hone.
  rewrite normalize_vertex_eq in Hrun. unfold normalize_vertex_cases in Hrun.
  cbn zeta in Hrun.
  rewrite (active_entry_unique _ _ _ _ _ Hnd Hl Hc Hg) in Hrun.
  destruct (gather_spec B a groups) as (_ & _ & _ & Hs & _).
  replace (Qle_bool 1 (clamp (weight ea))) with true in Hrun.
  2:{ symmetry. apply Qle_bool_iff. lra. }
  destruct (Qeq_bool _ 1) eqn:Hs1; cbn [negb] in Hrun; injection Hrun as <-.
  - apply Qeq_bool_iff in Hs1. rewrite Hs, Hsplit, Hone in Hs1.
    exists (clamped B e). rewrite list_lookup_fmap, Hq.
    split; [done|]. split; [apply group_clamped|].
    rewrite weight_clamped by done.
    destruct (decide (q = pa)) as [->|Hne].
    + rewrite Hl in Hq. by injection Hq as <-.
    + assert (Hge : group e ≠ a).
      { intros Hge. apply (Hu q e Hq Hce) in Hge. simpl in Hge. done. }
      pose proof (clamp_le_other_sum B a groups e
                    (list_elem_of_lookup_2 _ _ _ Hq) Hce Hge).
      pose proof (clamp_bounds (weight e)). lra.
  - destruct (decide (q = pa)) as [->|Hne].
    + eexists. rewrite list_lookup_alter_eq, lookup_rewrite_from, Hq.
      split; [done|]. split; [by simpl; rewrite group_rewritten|]. done.
    + eexists. rewrite list_lookup_alter_ne, lookup_rewrite_from, Hq by done.
      split; [done|]. split; [by rewrite group_rewritten|].
      by rewrite weight_rewritten.
Qed.

(** Without an element for the active group, and with weight on the
    other groups, every collected weight is divided by their sum. *)
Lemma normalize_vertex_case_A groups :
  (∀ e, e ∈ groups → group e ∈ B → group e ≠ a) →
  (0 < other_sum B a (map (clamped B) groups))%Q →
  ∃ groups1,
    normalize_vertex B a groups = Ok groups1 ∧
    (armature_sum B groups1 == 1)%Q ∧
    ∀ q e, groups !! q = Some e → group e ∈ B →
      ∃ e1, groups1 !! q = Some e1 ∧ group e1 = group e ∧
            (weight e1 ==
             clamp (weight e) / other_sum B a (map (clamped B) groups))%Q.
Proof.
  intros Hno Hpos.
  assert (Ha : active_entry B a groups = None).
  { destruct (active_entry B a groups) as [[pa ea]|] eqn:Ha; [|done].
    destruct (active_entry_from_Some _ _ _ _ _ _ Ha) as (_ & Hl & Hc & Hg).
    exfalso. eapply Hno; [by eapply list_elem_of_lookup_2|done..]. }
  assert (Hsame : (other_sum B a (map (clamped B) groups)
                   == armature_sum B (map (clamped B) groups))%Q).
  { apply other_sum_no_active. intros e He [Hc Hg]. by apply (Hno e He Hc). }
  rewrite normalize_vertex_eq. unfold normalize_vertex_cases. cbn zeta.
  rewrite Ha.
  destruct (gather_spec B a groups) as (_ & _ & _ & Hs & Hso & _).
  destruct (Qeq_bool _ 1) eqn:Hs1; cbn [negb].
  - apply Qeq_bool_iff in Hs1. eexists. split; [done|].
    split; [by rewrite <- Hs|].
    intros q e Hq Hc. exists (clamped B e). rewrite list_lookup_fmap, Hq.
    split; [done|]. split; [apply group_clamped|].
    rewrite weight_clamped by done. rewrite Hsame, <- Hs, Hs1. field.
  - replace (truthy _) with true.
    2:{ symmetry. apply truthy_true. rewrite Hso. lra. }
    eexists. split; [done|]. split.
    + rewrite armature_sum_scaled, Hso, <- Hsame. field. lra.
    + intros q e Hq Hc. eexists. rewrite lookup_rewrite_from, Hq.
      split; [done|]. split; [apply group_rewritten|].
      rewrite weight_rewritten by done. simpl. by rewrite Hso.
Qed.

(** A vertex with no positive weight on the armature's groups is only
    clamped: all its collected weights end at 0. *)
Lemma normalize_vertex_all_zero groups :
  (∃ e, e ∈ groups ∧ group e ∈ B ∧ group e = a) →
  (∀ e, e ∈ groups → group e ∈ B → (weight e <= 0)%Q) →
  normalize_vertex B a groups = Ok (map (clamped B) groups) ∧
  ∀ e1, e1 ∈ map (clamped B) groups → group e1 ∈ B → (weight e1 == 0)%Q.
Proof.
  intros (ea & Hea & Hca & Hga) Hz.
  assert (Hc0 : ∀ e, e ∈ groups → group e ∈ B → (clamp (weight e) == 0)%Q).
  { intros e He Hc. specialize (Hz e He Hc). unfold clamp.
    destruct (Q.max_spec (Qmin (weight e) 1) 0) as [[? ->]|[? ->]];
      destruct (Q.min_spec (weight e) 1) as [[? Hm]|[? Hm]];
      rewrite ?Hm in *; lra. }
  assert (Hs0 : (armature_sum B (map (clamped B) groups) == 0)%Q).
  { clear -Hc0. induction groups as [|e groups IH]; [done|].
    rewrite map_cons. destruct (decide (group e ∈ B)).
    - rewrite armature_sum_in, weight_clamped, IH, (Hc0 e); try done.
      + by left.
      + intros e' He'. apply Hc0. by right.
      + by apply collected_clamped.
    - rewrite armature_sum_out, IH; [done|..].
      + intros e' He'. apply Hc0. by right.
      + by rewrite collected_clamped. }
  assert (Hso0 : (other_sum B a (map (clamped B) groups) == 0)%Q).
  { apply other_sum_zero. intros e He Hc _. by apply Hc0. }
  split.
  - rewrite normalize_vertex_eq. unfold normalize_vertex_cases. cbn zeta.
    destruct (gather_spec B a groups) as (_ & _ & _ & Hs & Hso & _).
    destruct (negb _); [|done].
    destruct (active_entry B a groups) as [[pa e]|] eqn:Ha.
    2:{ exfalso. by apply (active_entry_from_None _ _ _ _ Ha ea Hea). }
    destruct (active_entry_from_Some _ _ _ _ _ _ Ha) as (_ & Hl & Hc & Hg).
    replace (Qle_bool 1 (clamp (weight e))) with false.
    2:{ symmetry. apply not_true_is_false. intros H.
        apply Qle_bool_iff in H.
        rewrite (Hc0 e) in H; [lra|by eapply list_elem_of_lookup_2|done]. }
    replace (truthy (sum_other _)) with false.
    2:{ symmetry. apply truthy_false. by rewrite Hso. }
    replace (truthy (sum _)) with false; [done|].
    symmetry. apply truthy_false. by rewrite Hs.
  - intros e1 He1 Hc1. apply list_elem_of_fmap in He1 as (e & -> & He).
    rewrite group_clamped in Hc1. rewrite weight_clamped by done.
    by apply Hc0.
Qed.
End vertex_results.

(** * Further properties of the operator *)

(** What a finished call has gone through. *)
Lemma normalize_armature_finished st out :
  normalize_armature st = Ok out → returned out = FINISHED →
  mode st ≠ PARTICLE ∧
  (∃ name, vertex_groups st !! active_index st = Some name ∧
           name ∈ discovered_bones st) ∧
  reports out = (if 1 <? (find_armature (modifiers st) [] 0).2
                 then [(WARNING, multiple_armatures_msg)] else []) ∧
  normalize_vertices (armature_group_ids st) (active_index st)
    (map (ensure_groups (bone_index_list st)) (vertices st))
  = Ok (vertices (final out)) ∧
  final out = with_vertices (vertices (final out))
                (assigned_state (bone_index_list st) st).
Proof.
  rewrite normalize_armature_with. unfold armature_group_ids, bone_index_list.
  generalize (discovered_bones st) as bones.
  generalize ((find_armature (modifiers st) [] 0).2) as armatures.
  intros armatures bones. unfold normalize_with.
  destruct (bool_decide (bones = [])); [by intros [= <-]|].
  destruct (vertex_groups st !! active_index st) as [name|] eqn:Hn; [|done].
  cbn [mbind result_bind].
  destruct (bool_decide (name ∈ bones)) eqn:Hin; cbn [negb];
    [|by intros [= <-]].
  apply bool_decide_eq_true in Hin.
  rewrite assign_all_groups_spec.
  destruct (decide (mode st = PARTICLE)); [done|]. cbn [mbind result_bind].
  change (active_index (assigned_state _ st)) with (active_index st).
  change (vertices (assigned_state ?G st)) with (map (ensure_groups G) (vertices st)).
  destruct (normalize_vertices _ _ _) as [vs'|] eqn:Hvs; [|done].
  cbn [mbind result_bind]. intros [= <-] _. cbn. eauto 10.
Qed.

(** X1: Case B on the whole operator.  When a vertex (one element per
    group) has its active group at weight 1 or more, a finished call
    leaves the active group's element at 1 and every other element of an
    armature group at 0. *)
Theorem active_group_dominates st out i v pa ea :
  normalize_armature st = Ok out → returned out = FINISHED →
  vertices st !! i = Some v → NoDup (map group v) →
  v !! pa = Some ea → group ea = active_index st → (1 <= weight ea)%Q →
  ∃ v', vertices (final out) !! i = Some v' ∧
    ∀ q e', v' !! q = Some e' → group e' ∈ armature_group_ids st →
            (weight e' == if decide (q = pa) then 1 else 0)%Q.
Proof.
  intros Hrun Hfin Hv Hnd Hpa Hg Hw.
  destruct (finished_vertex _ _ _ _ Hrun Hfin Hv)
    as (Ha & added & v' & Hadd & Hv' & Hnv).
  exists v'. split; [done|]. intros q e' Hq Hc'.
  destruct (normalize_vertex_frame _ _ _ _ Hnv) as (Hlen & Hfr).
  assert (Hlt : q < length (v ++ added)).
  { rewrite <- Hlen. by eapply lookup_lt_Some. }
  destruct (lookup_lt_is_Some_2 _ _ Hlt) as [e He].
  destruct (Hfr q e He) as (e'' & He'' & Hge & _).
  rewrite Hq in He''. injection He'' as <-.
  destruct (normalize_vertex_case_B (armature_group_ids st) (active_index st)
              (v ++ added) v' pa ea) with (q := q) (e := e)
    as (e1 & He1 & _ & Hw1); try done.
  - by eapply NoDup_added.
  - by apply lookup_app_l_Some.
  - by rewrite Hg.
  - by rewrite <- Hge.
  - rewrite Hq in He1. by injection He1 as <-.
Qed.

(** The active group above 1, another group at 1/2. *)
Definition over_one : State :=
  session [armature ["A"; "B"]] ["A"; "B"] [[vge 0 (6 # 5); vge 1 (1 # 2)]].

Definition over_one_out : outcome :=
  Eval vm_compute in outcome_of (normalize_armature over_one) over_one.

Lemma active_group_dominates_witness :
  ∃ v', vertices (final over_one_out) !! 0 = Some v' ∧
    ∀ q e', v' !! q = Some e' → group e' ∈ armature_group_ids over_one →
            (weight e' == if decide (q = 0%nat) then 1 else 0)%Q.
Proof.
  apply (active_group_dominates over_one over_one_out 0
           [vge 0 (6 # 5); vge 1 (1 # 2)] 0 (vge 0 (6 # 5))).
  - by vm_compute.
  - reflexivity.
  - reflexivity.
  - apply (bool_decide_unpack _). by vm_compute.
  - reflexivity.
  - reflexivity.
  - by vm_compute.
Defined.

(** X2: after a finished call every weight of a vertex (one element per
    group) on an armature group lies within [0,1]. *)
Theorem weights_end_in_unit_interval st out i v :
  normalize_armature st = Ok out → returned out = FINISHED →
  vertices st !! i = Some v → NoDup (map group v) →
  ∃ v', vertices (final out) !! i = Some v' ∧
    ∀ e', e' ∈ v' → group e' ∈ armature_group_ids st →
          (0 <= weight e' <= 1)%Q.
Proof.
  intros Hrun Hfin Hv Hnd.
  destruct (finished_vertex _ _ _ _ Hrun Hfin Hv)
    as (_ & added & v' & Hadd & Hv' & Hnv).
  exists v'. split; [done|].
  eapply normalize_vertex_bounds; [|done]. by eapply NoDup_added.
Qed.

Lemma weights_end_in_unit_interval_witness :
  ∃ v', vertices (final over_one_out) !! 0 = Some v' ∧
    ∀ e', e' ∈ v' → group e' ∈ armature_group_ids over_one →
          (0 <= weight e' <= 1)%Q.
Proof.
  apply (weights_end_in_unit_interval over_one over_one_out 0
           [vge 0 (6 # 5); vge 1 (1 # 2)]).
  - by vm_compute.
  - reflexivity.
  - reflexivity.
  - apply (bool_decide_unpack _). by vm_compute.
Defined.

(** X3: a returning call never removes, moves or regroups an element of
    a vertex: the groups of a vertex's elements are the former ones, in
    place, followed by armature groups the vertex had no element for,
    each once; and the mesh keeps its number of vertices. *)
Theorem elements_are_kept st out i v :
  normalize_armature st = Ok out →
  vertices st !! i = Some v →
  length (vertices (final out)) = length (vertices st) ∧
  ∃ v' new_groups,
    vertices (final out) !! i = Some v' ∧
    map group v' = map group v ++ new_groups ∧
    NoDup new_groups ∧
    ∀ g, g ∈ new_groups → g ∈ armature_group_ids st ∧ g ∉ map group v.
Proof.
  intros Hrun Hv.
  destruct (normalize_armature_inv _ _ Hrun)
    as [(_ & -> & _)|(Hfin & _ & Hvs & _)].
  { split; [done|]. exists v, []. rewrite app_nil_r.
    split; [done|]. split; [done|]. split; [constructor|].
    by intros g ?%elem_of_nil. }
  destruct (finished_vertex _ _ _ _ Hrun Hfin Hv)
    as (_ & added & v' & (Hnda & Hz & _) & Hv' & Hnv).
  split.
  { destruct (normalize_vertices_lookup _ _ _ _ Hvs) as [-> _].
    by rewrite length_map. }
  exists v', (map group added). split; [done|].
  destruct (normalize_vertex_frame _ _ _ _ Hnv) as (Hlen & Hfr).
  split; [|split; [done|]].
  - rewrite <- map_app. apply list_eq. intros k.
    rewrite !list_lookup_fmap.
    destruct ((v ++ added) !! k) as [e|] eqn:He.
    + destruct (Hfr k e He) as (e' & -> & Hg & _). simpl. by rewrite Hg.
    + apply lookup_ge_None in He. rewrite <- Hlen in He.
      apply lookup_ge_None in He. by rewrite He.
  - intros g Hg. apply list_elem_of_fmap in Hg as (e & -> & He).
    destruct (Hz e He) as (_ & Hin & Hout).
    split; [by apply elem_of_list_to_set|done].
Qed.

(** A mesh whose second vertex has no element for bone B. *)
Definition lacking_mesh : State :=
  session [armature ["A"; "B"]] ["A"; "B"; "Extra"]
    [[vge 0 (3 # 10); vge 1 (5 # 10)]; [vge 2 (1 # 3); vge 0 (1 # 5)]].

Definition lacking_mesh_out : outcome :=
  Eval vm_compute in outcome_of (normalize_armature lacking_mesh) lacking_mesh.

Lemma elements_are_kept_witness :
  length (vertices (final lacking_mesh_out)) = length (vertices lacking_mesh) ∧
  ∃ v' new_groups,
    vertices (final lacking_mesh_out) !! 1 = Some v' ∧
    map group v' = map group [vge 2 (1 # 3); vge 0 (1 # 5)] ++ new_groups ∧
    NoDup new_groups ∧
    ∀ g, g ∈ new_groups →
         g ∈ armature_group_ids lacking_mesh ∧
         g ∉ map group [vge 2 (1 # 3); vge 0 (1 # 5)].
Proof.
  apply (elements_are_kept lacking_mesh lacking_mesh_out 1).
  - by vm_compute.
  - reflexivity.
Defined.

(** X4: a vertex whose weights on the armature's groups lie within
    [0,1] and sum to 1 comes out of a finished call as it was, followed
    by an element at weight 0 for each armature group it had none for. *)
Theorem normalized_vertex_is_left st out i v :
  normalize_armature st = Ok out → returned out = FINISHED →
  vertices st !! i = Some v →
  (∀ e, e ∈ v → group e ∈ armature_group_ids st → (0 <= weight e <= 1)%Q) →
  (armature_sum (armature_group_ids st) v == 1)%Q →
  ∃ added,
    vertices (final out) !! i = Some (v ++ added) ∧
    NoDup (map group added) ∧
    ∀ e, e ∈ added →
         weight e = 0%Q ∧ group e ∈ armature_group_ids st ∧
         group e ∉ map group v.
Proof.
  intros Hrun Hfin Hv Hb Hs.
  destruct (finished_vertex _ _ _ _ Hrun Hfin Hv)
    as (_ & added & v' & (Hnda & Hz & _) & Hv' & Hnv).
  assert (Hz0 : ∀ e, e ∈ added → weight e = 0%Q).
  { intros e He. by destruct (Hz e He). }
  rewrite normalize_vertex_settled in Hnv.
  - injection Hnv as <-. exists added. split; [done|]. split; [done|].
    intros e He. destruct (Hz e He) as (? & ? & ?).
    split; [done|]. split; [by apply elem_of_list_to_set|done].
  - intros e [He|He]%elem_of_app Hc; [by apply Hb|].
    rewrite (Hz0 e He). lra.
  - rewrite armature_sum_app, Hs.
    assert (H0 : (armature_sum (armature_group_ids st) added == 0)%Q).
    { clear -Hz0. induction added as [|e added IH]; [done|]. simpl.
      destruct (decide _).
      - rewrite IH, (Hz0 e) by (try (by left); intros; apply Hz0; by right).
        ring.
      - apply IH. intros. apply Hz0. by right. }
    rewrite H0. ring.
Qed.

(** A vertex already normalized over bones A and B, with no element for
    bone C. *)
Definition settled_mesh : State :=
  session [armature ["A"; "B"; "C"]] ["A"; "B"; "C"]
    [[vge 0 (1 # 4); vge 1 (3 # 4)]].

Definition settled_mesh_out : outcome :=
  Eval vm_compute in outcome_of (normalize_armature settled_mesh) settled_mesh.

Lemma normalized_vertex_is_left_witness :
  ∃ added,
    vertices (final settled_mesh_out) !! 0
    = Some ([vge 0 (1 # 4); vge 1 (3 # 4)] ++ added) ∧
    NoDup (map group added) ∧
    ∀ e, e ∈ added →
         weight e = 0%Q ∧ group e ∈ armature_group_ids settled_mesh ∧
         group e ∉ map group [vge 0 (1 # 4); vge 1 (3 # 4)].
Proof.
  apply (normalized_vertex_is_left settled_mesh settled_mesh_out 0).
  - by vm_compute.
  - reflexivity.
  - reflexivity.
  - intros e He _. apply elem_of_cons in He as [->|He]; [by vm_compute|].
    apply list_elem_of_singleton in He as ->. by vm_compute.
  - by vm_compute.
Defined.

(** X5: a vertex with no positive weight on any armature group is not
    normalized: after a finished call all its weights on the armature's
    groups are 0. *)
Theorem weightless_vertex_stays_at_zero st out i v :
  normalize_armature st = Ok out → returned out = FINISHED →
  vertices st !! i = Some v →
  (∀ e, e ∈ v → group e ∈ armature_group_ids st → (weight e <= 0)%Q) →
  ∃ v', vertices (final out) !! i = Some v' ∧
    ∀ e', e' ∈ v' → group e' ∈ armature_group_ids st → (weight e' == 0)%Q.
Proof.
  intros Hrun Hfin Hv Hz.
  destruct (normalize_armature_inv _ _ Hrun) as [(Hc & _)|(_ & Ha & _)];
    [congruence|].
  destruct (finished_vertex _ _ _ _ Hrun Hfin Hv)
    as (HaB & added & v' & (Hnda & Hz' & Hall) & Hv' & Hnv).
  exists v'. split; [done|].
  destruct (normalize_vertex_all_zero (armature_group_ids st) (active_index st)
              (v ++ added)) as [Hrun0 Hzero].
  - specialize (Hall _ Ha). apply list_elem_of_fmap in Hall as (e & He & Hin).
    exists e. by rewrite <- He.
  - intros e [He|He]%elem_of_app Hc; [by apply Hz|].
    destruct (Hz' e He) as (-> & _). lra.
  - rewrite Hnv in Hrun0. by injection Hrun0 as ->.
Qed.

(** A vertex with a zero and a negative weight. *)
Definition weightless_mesh : State :=
  session [armature ["A"; "B"]] ["A"; "B"] [[vge 0 0; vge 1 (-1 # 2)]].

Definition weightless_mesh_out : outcome :=
  Eval vm_compute in
    outcome_of (normalize_armature weightless_mesh) weightless_mesh.

Lemma weightless_vertex_stays_at_zero_witness :
  ∃ v', vertices (final weightless_mesh_out) !! 0 = Some v' ∧
    ∀ e', e' ∈ v' → group e' ∈ armature_group_ids weightless_mesh →
          (weight e' == 0)%Q.
Proof.
  apply (weightless_vertex_stays_at_zero weightless_mesh weightless_mesh_out 0
           [vge 0 0; vge 1 (-1 # 2)]).
  - by vm_compute.
  - reflexivity.
  - reflexivity.
  - intros e He _. apply elem_of_cons in He as [->|He]; [by vm_compute|].
    apply list_elem_of_singleton in He as ->. by vm_compute.
Defined.

(** X6: the operator holds the active group.  After a finished call the
    active group's element of a vertex (one element per group) has the
    weight it had, clamped to [0,1]; a vertex that had no element for the
    active group has one at weight 0. *)
Theorem active_weight_is_held st out i v :
  normalize_armature st = Ok out → returned out = FINISHED →
  vertices st !! i = Some v → NoDup (map group v) →
  ∃ v', vertices (final out) !! i = Some v' ∧
    (∀ pa ea, v !! pa = Some ea → group ea = active_index st →
       ∃ e', v' !! pa = Some e' ∧ group e' = active_index st ∧
             (weight e' == clamp (weight ea))%Q) ∧
    (active_index st ∉ map group v →
       ∃ e', e' ∈ v' ∧ group e' = active_index st ∧ (weight e' == 0)%Q).
Proof.
  intros Hrun Hfin Hv Hnd.
  destruct (normalize_armature_inv _ _ Hrun) as [(Hc & _)|(_ & Ha & _)];
    [congruence|].
  destruct (finished_vertex _ _ _ _ Hrun Hfin Hv)
    as (HaB & added & v' & Hadd & Hv' & Hnv).
  pose proof (NoDup_added _ _ _ Hnd Hadd) as Hnd'.
  exists v'. split; [done|]. split.
  - intros pa ea Hpa Hg.
    eapply normalize_vertex_active_held; [done|done| |by rewrite Hg|done].
    by apply lookup_app_l_Some.
  - intros Hout. destruct Hadd as (_ & Hz & Hall).
    specialize (Hall _ Ha). rewrite map_app in Hall.
    apply elem_of_app in Hall as [?|Hin]; [done|].
    apply list_elem_of_fmap in Hin as (e & He & Hin).
    pose proof Hin as Hin'. apply list_elem_of_lookup in Hin' as [k Hk].
    destruct (normalize_vertex_active_held (armature_group_ids st)
                (active_index st) (v ++ added) v' (length v + k) e)
      as (e' & He' & Hg' & Hw'); try done.
    + by rewrite lookup_app_r, Nat.add_comm, Nat.add_sub by lia.
    + by rewrite <- He.
    + exists e'. split; [by eapply list_elem_of_lookup_2|]. split; [done|].
      rewrite Hw'. destruct (Hz e Hin) as (-> & _). done.
Qed.

Lemma active_weight_is_held_witness :
  ∃ v', vertices (final lacking_mesh_out) !! 0 = Some v' ∧
    (∀ pa ea, [vge 0 (3 # 10); vge 1 (5 # 10)] !! pa = Some ea →
       group ea = active_index lacking_mesh →
       ∃ e', v' !! pa = Some e' ∧ group e' = active_index lacking_mesh ∧
             (weight e' == clamp (weight ea))%Q) ∧
    (active_index lacking_mesh ∉ map group [vge 0 (3 # 10); vge 1 (5 # 10)] →
       ∃ e', e' ∈ v' ∧ group e' = active_index lacking_mesh ∧
             (weight e' == 0)%Q).
Proof.
  apply (active_weight_is_held lacking_mesh lacking_mesh_out 0).
  - by vm_compute.
  - reflexivity.
  - reflexivity.
  - apply (bool_decide_unpack _). by vm_compute.
Defined.

(** ** Calling twice *)

Lemma ensure_group_covered v cur g :
  g ∈ map group v → ensure_group v cur g = cur.
Proof.
  intros Hg. unfold ensure_group. apply in_group_true in Hg. by rewrite Hg.
Qed.

Lemma ensure_groups_covered group_indexes v :
  (∀ g, g ∈ group_indexes → g ∈ map group v) →
  ensure_groups group_indexes v = v.
Proof.
  intros Hcov. unfold ensure_groups.
  assert (H : ∀ cur, fold_left (ensure_group v) group_indexes cur = cur);
    [|apply H].
  induction group_indexes as [|g gs IH]; intros cur; [done|]. simpl.
  rewrite ensure_group_covered by (apply Hcov; by left).
  apply IH. intros g' Hg'. apply Hcov. by right.
Qed.

Lemma missing_from_covered g vs :
  (∀ v, v ∈ vs → g ∈ map group v) → ∀ k, missing_from k g vs = [].
Proof.
  induction vs as [|v vs IH]; intros Hcov k; [done|]. simpl.
  assert (Hin : in_group g v = true).
  { apply in_group_true, Hcov. by left. }
  rewrite Hin. simpl. apply IH. intros v' Hv'. apply Hcov. by right.
Qed.

Lemma ensure_groups_covers group_indexes v g :
  g ∈ group_indexes → g ∈ map group (ensure_groups group_indexes v).
Proof.
  intros Hg.
  destruct (ensure_groups_spec group_indexes v) as (added & -> & _ & _ & Hall).
  by apply Hall.
Qed.

(** X7: the guarantor does its work once.  A second call with the same
    groups, on the state the first call returned, returns with every
    vertex as the first call left it, and (for a non-empty list of
    groups) with no vertex selected. *)
Theorem second_assignment_changes_no_vertex group_indexes st st1 :
  assign_all_groups group_indexes st = Ok st1 →
  ∃ st2, assign_all_groups group_indexes st1 = Ok st2 ∧
         vertices st2 = vertices st1 ∧
         (group_indexes ≠ [] → selected st2 = ∅).
Proof.
  rewrite !assign_all_groups_spec.
  destruct (decide (mode st = PARTICLE)); [done|]. intros [= <-].
  change (mode (assigned_state group_indexes st)) with (mode st).
  rewrite decide_False by done. eexists. split; [done|].
  assert (Hcov : ∀ v, v ∈ vertices (assigned_state group_indexes st) →
                      ∀ g, g ∈ group_indexes → g ∈ map group v).
  { intros v' Hv' g Hg. cbn in Hv'.
    apply list_elem_of_fmap in Hv' as (v & -> & _).
    by apply ensure_groups_covers. }
  split.
  - cbn [assigned_state vertices with_vertices].
    apply list_eq. intros k. rewrite list_lookup_fmap.
    destruct (map (ensure_groups group_indexes) (vertices st) !! k)
      as [v'|] eqn:Hk; [|done].
    simpl. f_equal. apply ensure_groups_covered, Hcov.
    by eapply list_elem_of_lookup_2.
  - intros Hne. cbn [assigned_state selected with_vertices with_selected].
    destruct (last group_indexes) as [g|] eqn:Hlast.
    + rewrite missing_from_covered; [done|].
      intros v Hv. apply (Hcov v Hv). apply last_Some in Hlast as [l' ->].
      apply elem_of_app. right. by apply list_elem_of_singleton.
    + by apply last_None in Hlast.
Qed.

Lemma second_assignment_changes_no_vertex_witness :
  ∃ st2, assign_all_groups [2; 0] sparse_mesh_assigned = Ok st2 ∧
         vertices st2 = vertices sparse_mesh_assigned ∧
         ([2; 0] ≠ [] → selected st2 = ∅).
Proof.
  apply (second_assignment_changes_no_vertex [2; 0] sparse_mesh).
  by vm_compute.
Defined.

(** X8: with an empty list of groups the guarantor is a no-op: called
    outside [PARTICLE] mode it returns the state it was given. *)
Theorem assign_no_groups st :
  mode st ≠ PARTICLE → assign_all_groups [] st = Ok st.
Proof.
  intros Hm. rewrite assign_all_groups_spec, decide_False by done.
  f_equal. unfold assigned_state. cbn [last].
  destruct st as [ms vg ai vs md w sel]. unfold with_vertices, with_selected.
  cbn. f_equal. induction vs as [|v vs IH]; [done|]. simpl. by rewrite IH.
Qed.

Lemma assign_no_groups_witness :
  assign_all_groups [] sparse_mesh = Ok sparse_mesh.
Proof. apply (assign_no_groups sparse_mesh). by vm_compute. Defined.

(** X9: the only exception the guarantor raises is the [TypeError] of
    [restore_mode] when it was called in [PARTICLE] mode, whose name
    [bpy.ops.object.mode_set] does not take. *)
Theorem assign_raises_only_in_particle_mode group_indexes st e :
  assign_all_groups group_indexes st = Raise e ↔
  e = TypeError ∧ mode st = PARTICLE.
Proof.
  rewrite assign_all_groups_spec.
  destruct (decide (mode st = PARTICLE)) as [Hm|Hm].
  - split; [by intros [= <-]|by intros [-> _]].
  - split; [done|by intros [_ ?]].
Qed.



From Stdlib Require Import Sorted.

(** ** Messages and bone groups *)

Lemma find_armature_count modifiers :
  (find_armature modifiers [] 0).2
  = Nat.min 2 (length (List.filter qualifies modifiers)).
Proof.
  rewrite find_armature_filter.
  destruct (List.filter qualifies modifiers) as [|m1 [|m2 rest]] eqn:Hf.
  - done.
  - assert (H1 : qualifies m1 = true) by (by eapply filter_qualifies_head).
    simpl. by rewrite H1.
  - assert (H1 : qualifies m1 = true) by (by eapply filter_qualifies_head).
    assert (H2 : qualifies m2 = true).
    { assert (Hin : In m2 (List.filter qualifies modifiers))
        by (rewrite Hf; right; by left).
      by apply filter_In in Hin as [_ ?]. }
    simpl. by rewrite H1, H2.
Qed.

(** X11: a returning call reports at most one message.  A cancelled
    call reports one of the two errors and leaves the state alone; a
    finished call reports the warning when two or more modifiers
    qualify, and nothing at all when one does. *)
Theorem reports_of_a_call st out :
  normalize_armature st = Ok out →
  match returned out with
  | CANCELLED =>
      final out = st ∧
      (reports out = [(ERROR, no_armature_msg)] ∨
       reports out = [(ERROR, not_on_armature_msg)])
  | FINISHED =>
      reports out =
      if decide (2 ≤ length (List.filter qualifies (modifiers st)))
      then [(WARNING, multiple_armatures_msg)] else []
  end.
Proof.
  intros Hrun. destruct (returned out) eqn:Hret.
  - destruct (normalize_armature_finished _ _ Hrun Hret)
      as (_ & _ & -> & _).
    rewrite find_armature_count.
    destruct (decide (2 ≤ _)) as [Hge|Hlt].
    + by rewrite Nat.min_l by done.
    + rewrite Nat.min_r by lia.
      destruct (1 <? _) eqn:H1; [|done]. apply Nat.ltb_lt in H1. lia.
  - revert Hrun. rewrite normalize_armature_with. unfold normalize_with.
    destruct (bool_decide _); [intros [= <-]; eauto|].
    destruct (vertex_groups st !! active_index st); [|done].
    cbn [mbind result_bind].
    destruct (negb _); [intros [= <-]; eauto|].
    destruct (assign_all_groups _ _); [|done]. cbn [mbind result_bind].
    destruct (normalize_vertices _ _ _); [|done]. cbn [mbind result_bind].
    intros [= <-]. done.
Qed.

Lemma reports_of_a_call_witness :
  match returned two_bones_out with
  | CANCELLED =>
      final two_bones_out = two_bones ∧
      (reports two_bones_out = [(ERROR, no_armature_msg)] ∨
       reports two_bones_out = [(ERROR, not_on_armature_msg)])
  | FINISHED =>
      reports two_bones_out =
      if decide (2 ≤ length (List.filter qualifies (modifiers two_bones)))
      then [(WARNING, multiple_armatures_msg)] else []
  end.
Proof. apply (reports_of_a_call two_bones two_bones_out). by vm_compute. Defined.

Lemma get_bone_indexes_sorted (bones vg : list string) : ∀ k,
  StronglySorted lt
    (omap (λ '(index, name),
             if bool_decide (name ∈ bones) then Some index else None)
          (enumerate_from k vg)).
Proof.
  induction vg as [|n0 vg IH]; intros k; [constructor|].
  cbn [enumerate_from omap list_omap].
  destruct (bool_decide (n0 ∈ bones)); [|apply IH].
  constructor; [apply IH|].
  apply Forall_forall. intros i Hi.
  apply get_bone_indexes_from in Hi as (_ & Hk & _). lia.
Qed.

(** X12: [bone_indexes] holds the indices of the vertex groups named
    after a bone, and only those, each once and in increasing order. *)
Theorem bone_indexes_are_the_named_groups (vertex_groups bones : list string) :
  StronglySorted lt (get_bone_indexes vertex_groups bones) ∧
  NoDup (get_bone_indexes vertex_groups bones) ∧
  ∀ i, i ∈ get_bone_indexes vertex_groups bones ↔
       ∃ name, vertex_groups !! i = Some name ∧ name ∈ bones.
Proof.
  pose proof (get_bone_indexes_sorted bones vertex_groups 0) as Hs.
  split; [done|]. split; [|apply get_bone_indexes_spec].
  unfold get_bone_indexes, enumerate.
  induction Hs as [|i l _ IH Hall]; [constructor|].
  constructor; [|done]. intros Hin.
  rewrite Forall_forall in Hall. specialize (Hall i Hin). lia.
Qed.

(** X13: with exactly one qualifying modifier, whatever other modifiers
    the object has, the bones are that modifier's. *)
Theorem single_armature_bones st m :
  List.filter qualifies (modifiers st) = [m] →
  discovered_bones st = default [] (mod_object m) ∧
  mod_object m = Some (discovered_bones st).
Proof.
  intros Hf. unfold discovered_bones.
  rewrite find_armature_filter, Hf.
  assert (H1 : qualifies m = true) by (by eapply filter_qualifies_head).
  simpl. rewrite H1. simpl. split; [done|].
  unfold qualifies in H1. apply andb_true_iff in H1 as [_ H1].
  apply bool_decide_eq_true in H1 as [bones Hb]. by rewrite Hb.
Qed.

(** An object with a subdivision modifier, an armature that does not use
    vertex groups, and one that does. *)
Definition mixed_modifiers : State :=
  session
    [ {| mod_type := "SUBSURF"; use_vertex_groups := false;
         mod_object := None |};
      {| mod_type := "ARMATURE"; use_vertex_groups := false;
         mod_object := Some ["X"] |};
      armature ["A"; "B"] ]
    ["A"; "B"] [[vge 0 (3 # 10); vge 1 (5 # 10)]].

Lemma single_armature_bones_witness :
  discovered_bones mixed_modifiers
  = default [] (mod_object (armature ["A"; "B"])) ∧
  mod_object (armature ["A"; "B"]) = Some (discovered_bones mixed_modifiers).
Proof.
  apply (single_armature_bones mixed_modifiers (armature ["A"; "B"])).
  reflexivity.
Defined.

(** ** [restore_mode] on names *)

Lemma contains_underscore_cons c s :
  contains "_" (String c s) = Ascii.eqb c "_" || contains "_" s.
Proof.
  cbn [contains String.prefix].
  destruct (ascii_dec "_" c) as [<-|Hne].
  - rewrite Ascii.eqb_refl. destruct s; reflexivity.
  - replace (Ascii.eqb c "_") with false; [done|].
    symmetry. apply Ascii.eqb_neq. congruence.
Qed.

Lemma split_no_underscore s : contains "_" s = false → split "_" s = [s].
Proof.
  induction s as [|c s IH]; intros Hs; [done|].
  rewrite contains_underscore_cons in Hs.
  apply orb_false_iff in Hs as [Hc Hs]. simpl. rewrite Hc.
  by rewrite (IH Hs).
Qed.

Lemma split_first_part p q :
  contains "_" p = false →
  split "_" (p +:+ "_" +:+ q) = p :: split "_" q.
Proof.
  induction p as [|c p IH]; intros Hp; [done|].
  rewrite contains_underscore_cons in Hp.
  apply orb_false_iff in Hp as [Hc Hp]. simpl. rewrite Hc.
  by rewrite (IH Hp).
Qed.

(** X14: on a name of two parts joined by an underscore, neither part
    holding an underscore and the name not holding EDIT, [restore_mode]
    asks the host for the name with its parts swapped. *)
Theorem restore_mode_swaps_the_parts p q st :
  contains "_" p = false → contains "_" q = false →
  contains "EDIT" (p +:+ "_" +:+ q) = false →
  restore_mode (p +:+ "_" +:+ q) st = mode_set (q +:+ "_" +:+ p) st.
Proof.
  intros Hp Hq He. unfold restore_mode. rewrite He.
  assert (Hu : contains "_" (p +:+ "_" +:+ q) = true).
  { clear -p. induction p as [|c p IH].
    { change ("" +:+ "_" +:+ q) with (String "_" q).
      by rewrite contains_underscore_cons. }
    change (String c p +:+ "_" +:+ q) with (String c (p +:+ "_" +:+ q)).
    rewrite contains_underscore_cons, IH. apply orb_true_r. }
  rewrite Hu, split_first_part, split_no_underscore by done.
  done.
Qed.

Lemma restore_mode_swaps_the_parts_witness :
  restore_mode ("PAINT" +:+ "_" +:+ "WEIGHT") two_bones
  = mode_set ("WEIGHT" +:+ "_" +:+ "PAINT") two_bones.
Proof.
  apply (restore_mode_swaps_the_parts "PAINT" "WEIGHT" two_bones);
    reflexivity.
Defined.

(** ** The operator class: [poll], [execute], [invoke] *)

(** Modelled from the spec: the object's own mode (section 6, "gated so
    it is only invokable when ... in a weight-editing interaction mode"),
    the value of [obj.mode] in each context mode: the name
    [bpy.ops.object.mode_set] takes for it. *)
Definition obj_mode (m : context_mode) : string :=
  match m with
  | EDIT_MESH => "EDIT"
  | SCULPT => "SCULPT"
  | PAINT_WEIGHT => "WEIGHT_PAINT"
  | PAINT_VERTEX => "VERTEX_PAINT"
  | PAINT_TEXTURE => "TEXTURE_PAINT"
  | PARTICLE => "PARTICLE_EDIT"
  | OBJECT => "OBJECT"
  end.

(** [context.active_object], when there is one: its [type] and the state
    the script reads and writes of it. *)
Record Object := { obj_type : string; obj_state : State }.

Definition poll (active_object : option Object) : bool :=
  match active_object with
  | None => false
  | Some obj =>
      bool_decide (obj_mode (mode (obj_state obj)) = "WEIGHT_PAINT"%string)
      && bool_decide (obj_type obj = "MESH"%string)
      && (0 <? length (vertex_groups (obj_state obj)))
  end.

(** [execute], for the value of [self.active_index]: [None] until
    [invoke] has set it.  An exception of [normalize_armature] goes
    through. *)
Definition execute (self_active_index : option nat) (st : State)
  : result outcome :=
  result ← normalize_armature st;
  let st :=
    match self_active_index with
    | Some active_index => with_active_index active_index (final result)
    | None => final result
    end in
  Ok {| reports := reports result; returned := returned result; final := st |}.

Definition invoke (st : State) : result outcome :=
  execute (Some (active_index st)) st.

Lemma obj_mode_round_trip m : object_mode (obj_mode m) = Some m.
Proof. by destruct m. Qed.

Lemma with_active_index_same st : with_active_index (active_index st) st = st.
Proof. by destruct st. Qed.

Lemma active_index_of_outcome st out :
  normalize_armature st = Ok out → active_index (final out) = active_index st.
Proof.
  intros Hrun.
  destruct (normalize_armature_inv _ _ Hrun)
    as [(_ & -> & _)|(_ & _ & _ & ->)]; done.
Qed.

Lemma invoke_eq st : invoke st = normalize_armature st.
Proof.
  unfold invoke, execute.
  destruct (normalize_armature st) as [out|e] eqn:Hrun; [|done].
  cbn [mbind result_bind].
  rewrite <- (active_index_of_outcome _ _ Hrun), with_active_index_same.
  by destruct out.
Qed.


Lemma normalize_armature_returns st :
  mode st ≠ PARTICLE → active_index st < length (vertex_groups st) →
  ∃ out, normalize_armature st = Ok out.
Proof.
  intros Hm Hai. rewrite normalize_armature_with.
  destruct (decide (discovered_bones st = [])) as [Hb|Hb].
  { unfold normalize_with. rewrite bool_decide_eq_true_2 by done. eauto. }
  destruct (lookup_lt_is_Some_2 _ _ Hai) as [name Hn].
  destruct (decide (name ∈ discovered_bones st)) as [Hin|Hout].
  - rewrite (normalize_with_checked _ _ _ name) by done.
    rewrite decide_False by done. cbn zeta.
    destruct (normalize_ensured_Ok
                (get_bone_indexes (vertex_groups st) (discovered_bones st))
                (active_index st) (vertices st)) as [vs' ->].
    { apply get_bone_indexes_spec. eauto. }
    cbn [mbind result_bind]. eauto.
  - unfold normalize_with. rewrite bool_decide_eq_false_2 by done.
    rewrite Hn. cbn [mbind result_bind].
    rewrite bool_decide_eq_false_2 by done. cbn [negb]. eauto.
Qed.

(** X16: an object [poll] admits, whose active index designates one of
    its groups, makes [invoke] return: no exception is raised, whatever
    the modifiers and the weights. *)
Theorem polled_invoke_returns obj :
  poll (Some obj) = true →
  active_index (obj_state obj) < length (vertex_groups (obj_state obj)) →
  mode (obj_state obj) = PAINT_WEIGHT ∧
  ∃ out, invoke (obj_state obj) = Ok out.
Proof.
  intros Hpoll Hai. unfold poll in Hpoll.
  apply andb_true_iff in Hpoll as [Hpoll _].
  apply andb_true_iff in Hpoll as [Hmode _].
  apply bool_decide_eq_true in Hmode.
  assert (Hm : mode (obj_state obj) = PAINT_WEIGHT).
  { by destruct (mode (obj_state obj)). }
  split; [done|].
  rewrite invoke_eq.
  apply normalize_armature_returns; [by rewrite Hm|done].
Qed.

Lemma polled_invoke_returns_witness :
  mode two_bones = PAINT_WEIGHT ∧ ∃ out, invoke two_bones = Ok out.
Proof.
  apply (polled_invoke_returns {| obj_type := "MESH"; obj_state := two_bones |}).
  - by vm_compute.
  - simpl. lia.
Defined.


(** ** The branch for a vertex outside the active group *)

(** X17: the loop body on a vertex that has no element for the active
    group but weight on other armature groups: every collected weight is
    divided by the sum of the collected weights, so that they sum to 1.
    (After the guarantor no vertex is in this case.) *)
Theorem vertex_outside_active_group (B : gset nat) (a : nat) groups :
  (∀ e, e ∈ groups → group e ∈ B → group e ≠ a) →
  (0 < other_sum B a (map (clamped B) groups))%Q →
  ∃ groups1,
    normalize_vertex B a groups = Ok groups1 ∧
    (armature_sum B groups1 == 1)%Q ∧
    ∀ q e, groups !! q = Some e → group e ∈ B →
      ∃ e1, groups1 !! q = Some e1 ∧ group e1 = group e ∧
            (weight e1 ==
             clamp (weight e) / armature_sum B (map (clamped B) groups))%Q.
Proof.
  intros Hno Hpos.
  destruct (normalize_vertex_case_A B a groups Hno Hpos)
    as (groups1 & Hrun & Hsum & Hw).
  exists groups1. split; [done|]. split; [done|].
  intros q e Hq Hc. destruct (Hw q e Hq Hc) as (e1 & He1 & Hg & Hw1).
  exists e1. split; [done|]. split; [done|]. rewrite Hw1.
  assert (Hsame : (other_sum B a (map (clamped B) groups)
                   == armature_sum B (map (clamped B) groups))%Q).
  { apply other_sum_no_active. intros e' He' [Hc' Hg']. by apply (Hno e' He' Hc'). }
  by rewrite Hsame.
Qed.

(** The groups of three bones, and a vertex with no element for the
    first. *)
Definition three_groups : gset nat := {[0; 1; 2]}.

Definition outside_vertex : list VertexGroupElement :=
  [vge 1 (2 # 5); vge 2 (1 # 5)].

Lemma vertex_outside_active_group_witness :
  ∃ groups1,
    normalize_vertex three_groups 0 outside_vertex = Ok groups1 ∧
    (armature_sum three_groups groups1 == 1)%Q ∧
    ∀ q e, outside_vertex !! q = Some e → group e ∈ three_groups →
      ∃ e1, groups1 !! q = Some e1 ∧ group e1 = group e ∧
            (weight e1 ==
             clamp (weight e)
             / armature_sum three_groups
                 (map (clamped three_groups) outside_vertex))%Q.
Proof.
  apply (vertex_outside_active_group three_groups 0 outside_vertex).
  - intros e He _. unfold outside_vertex in He.
    apply elem_of_cons in He as [->|He]; [by vm_compute|].
    apply list_elem_of_singleton in He as ->. by vm_compute.
  - by vm_compute.
Defined.
